(** * RAGFlow ODT parser: a shallow embedding of [deepdoc/parser/odt_parser.py]

    The development follows the source file top to bottom:
    - Python strings, as sequences of Unicode code points, with the few
      [str] methods the parser calls ([strip], [split], [join], [lower],
      [find], [replace]);
    - the fragment of [re] the twelve cell patterns use, with a derivative
      matcher proved equivalent to the usual inductive semantics;
    - [xml.etree.ElementTree] elements, [itertext], [findall] and [find];
    - [__extract_list_text], [__extract_table_content],
      [__compose_table_content] (with its local [blockType]) and the part of
      [__call__] that runs once [content.xml] has been parsed.

    Functions that can raise in Python return [option]; [None] stands for the
    exception. *)

From Stdlib Require Import String Ascii Arith Bool ZArith NArith Lia List Sorted.
Import ListNotations.

Set Implicit Arguments.

(** ** Python strings *)

Module PyStr.

(** A Python [str] is a sequence of code points. *)
Definition char := N.
Bind Scope N_scope with char.
Definition str := list char.

Fixpoint bytes_of (s : string) : list N :=
  match s with
  | EmptyString => []
  | String a s' => N_of_ascii a :: bytes_of s'
  end.

(** The literals of the source are written as Rocq strings, which hold the
    UTF-8 bytes of the text; [utf8_decode] gives back the code points. *)
Fixpoint utf8_decode (bs : list N) : str :=
  match bs with
  | [] => []
  | b0 :: r0 =>
    if (b0 <? 128)%N then b0 :: utf8_decode r0
    else if (b0 <? 224)%N then
      match r0 with
      | b1 :: r1 => ((b0 - 192) * 64 + (b1 - 128))%N :: utf8_decode r1
      | _ => []
      end
    else if (b0 <? 240)%N then
      match r0 with
      | b1 :: b2 :: r2 =>
        ((b0 - 224) * 4096 + (b1 - 128) * 64 + (b2 - 128))%N :: utf8_decode r2
      | _ => []
      end
    else
      match r0 with
      | b1 :: b2 :: b3 :: r3 =>
        ((b0 - 240) * 262144 + (b1 - 128) * 4096 + (b2 - 128) * 64 + (b3 - 128))%N
          :: utf8_decode r3
      | _ => []
      end
  end.

Definition lit (s : string) : str := utf8_decode (bytes_of s).

Definition str_eqb (a b : str) : bool :=
  if list_eq_dec N.eq_dec a b then true else false.

Definition in_range (lo hi c : char) : bool := ((lo <=? c) && (c <=? hi))%N.

Definition one_of (s : str) (c : char) : bool := existsb (N.eqb c) s.

(** [str.isspace] for one character: the code points that [strip] and
    [split] (called without argument) treat as white space. *)
Definition isspace (c : char) : bool :=
  (in_range 9 13 c || in_range 28 32 c || (c =? 133) || (c =? 160)
   || (c =? 5760) || in_range 8192 8202 c || (c =? 8232) || (c =? 8233)
   || (c =? 8239) || (c =? 8287) || (c =? 12288))%N.

Fixpoint lstrip (s : str) : str :=
  match s with
  | [] => []
  | c :: s' => if isspace c then lstrip s' else s
  end.

Definition rstrip (s : str) : str := rev (lstrip (rev s)).

(** [s.strip()] *)
Definition strip (s : str) : str := rstrip (lstrip s).

(** [s.split()]: the maximal runs of non-space characters, in order.  [cur]
    holds the run being read, last character first. *)
Fixpoint split_from (cur : str) (s : str) : list str :=
  match s with
  | [] => match cur with [] => [] | _ => [rev cur] end
  | c :: s' =>
    if isspace c
    then match cur with [] => split_from [] s' | _ => rev cur :: split_from [] s' end
    else split_from (c :: cur) s'
  end.

Definition split (s : str) : list str := split_from [] s.

(** ["\n"] *)
Definition newline : str := [10%N].

(** [sep.join(l)] *)
Fixpoint join (sep : str) (l : list str) : str :=
  match l with
  | [] => []
  | [x] => x
  | x :: l' => x ++ sep ++ join sep l'
  end.

(** ['  ' * n] *)
Fixpoint repeat_str (s : str) (n : nat) : str :=
  match n with
  | O => []
  | S n' => s ++ repeat_str s n'
  end.

(** [x in t] for a list [t] of strings *)
Definition mem (x : str) (t : list str) : bool := existsb (str_eqb x) t.

(** Decimal digits of a positive integer, as [f"{n}"] prints them. *)
Fixpoint digits_fuel (fuel n : nat) (acc : str) : str :=
  match fuel with
  | O => acc
  | S fuel' =>
    let d := N.of_nat (n mod 10) in
    let acc' := (48 + d)%N :: acc in
    if n <? 10 then acc' else digits_fuel fuel' (n / 10) acc'
  end.

Definition str_of_nat (n : nat) : str := digits_fuel (S n) n [].

(** [s.lower()] on the letters [A]..[Z].  The parser lowers a style name
    only to look for ["num"] and ["number"] in it, and no other code point
    has [n], [u], [m], [b], [e] or [r] in its lower-case form. *)
Definition lower (s : str) : str :=
  map (fun c => if in_range 65%N 90%N c then (c + 32)%N else c) s.

Fixpoint startswith (s p : str) : bool :=
  match p, s with
  | [], _ => true
  | _ :: _, [] => false
  | a :: p', b :: s' => (a =? b)%N && startswith s' p'
  end.

(** [s.find(sub)]: the first index where [sub] occurs, or [-1]. *)
Fixpoint find_from (i : Z) (s sub : str) : Z :=
  if startswith s sub then i
  else match s with
       | [] => (-1)%Z
       | _ :: s' => find_from (i + 1)%Z s' sub
       end.

Definition find (s sub : str) : Z := find_from 0%Z s sub.

(** [sub in s] *)
Definition contains (s sub : str) : bool := (0 <=? find s sub)%Z.

(** [s.replace(old, new)] for a non-empty [old]: occurrences are replaced
    from the left and do not overlap.  [skip] counts the characters of a
    replaced occurrence still to be dropped. *)
Fixpoint replace_from (skip : nat) (old new s : str) : str :=
  match s with
  | [] => []
  | c :: s' =>
    match skip with
    | S k => replace_from k old new s'
    | O =>
      if startswith s old
      then new ++ replace_from (length old - 1) old new s'
      else c :: replace_from 0 old new s'
    end
  end.

Definition replace (s old new : str) : str := replace_from 0 old new s.

End PyStr.
Import PyStr.

(** ** Exceptions as [option] *)

Definition bind {A B : Type} (m : option A) (k : A -> option B) : option B :=
  match m with
  | Some a => k a
  | None => None
  end.

Notation "x <- m ;; k" := (bind m (fun x => k))
  (at level 61, m at next level, right associativity).

Fixpoint mapM {A B : Type} (f : A -> option B) (l : list A) : option (list B) :=
  match l with
  | [] => Some []
  | a :: l' => b <- f a ;; bs <- mapM f l' ;; Some (b :: bs)
  end.

(** [range(a, b)] *)
Definition range (a b : nat) : list nat := seq a (b - a).

(** ** The fragment of [re] used by the cell patterns *)

Module Re.

(** Pattern bodies.  A character class is kept as its membership test. *)
Inductive regex : Type :=
| Void
| Eps
| Cls (p : char -> bool)
| Cat (r1 r2 : regex)
| Alt (r1 r2 : regex)
| Star (r : regex).

(** [Seq [a; b; c]] is the concatenation [abc]. *)
Definition Seq (l : list regex) : regex := fold_right Cat Eps l.

(** A literal run of characters. *)
Definition Lit (s : string) : regex :=
  Seq (map (fun c => Cls (N.eqb c)) (lit s)).

(** [r+] *)
Definition Plus (r : regex) : regex := Cat r (Star r).

(** [r{n}] *)
Fixpoint Rep (n : nat) (r : regex) : regex :=
  match n with
  | O => Eps
  | S n' => Cat r (Rep n' r)
  end.

(** At most [k] copies of [r]. *)
Fixpoint UpTo (k : nat) (r : regex) : regex :=
  match k with
  | O => Eps
  | S k' => Alt Eps (Cat r (UpTo k' r))
  end.

(** [r{m,n}] *)
Definition RepRange (m n : nat) (r : regex) : regex :=
  Cat (Rep m r) (UpTo (n - m) r).

(** [.] without [re.DOTALL]: anything but a line feed. *)
Definition Dot : regex := Cls (fun c => negb (c =? 10)%N).

(** The language of a pattern body. *)
Inductive matches : regex -> str -> Prop :=
| m_eps : matches Eps []
| m_cls p c : p c = true -> matches (Cls p) [c]
| m_cat r1 r2 s1 s2 :
    matches r1 s1 -> matches r2 s2 -> matches (Cat r1 r2) (s1 ++ s2)
| m_alt_l r1 r2 s : matches r1 s -> matches (Alt r1 r2) s
| m_alt_r r1 r2 s : matches r2 s -> matches (Alt r1 r2) s
| m_star_nil r : matches (Star r) []
| m_star_app r s1 s2 :
    matches r s1 -> matches (Star r) s2 -> matches (Star r) (s1 ++ s2).

(** The matcher: Brzozowski derivatives. *)
Fixpoint nullable (r : regex) : bool :=
  match r with
  | Void => false
  | Eps => true
  | Cls _ => false
  | Cat r1 r2 => nullable r1 && nullable r2
  | Alt r1 r2 => nullable r1 || nullable r2
  | Star _ => true
  end.

Fixpoint deriv (c : char) (r : regex) : regex :=
  match r with
  | Void => Void
  | Eps => Void
  | Cls p => if p c then Eps else Void
  | Cat r1 r2 =>
    if nullable r1
    then Alt (Cat (deriv c r1) r2) (deriv c r2)
    else Cat (deriv c r1) r2
  | Alt r1 r2 => Alt (deriv c r1) (deriv c r2)
  | Star r1 => Cat (deriv c r1) (Star r1)
  end.

Fixpoint fullmatch (r : regex) (s : str) : bool :=
  match s with
  | [] => nullable r
  | c :: s' => fullmatch (deriv c r) s'
  end.

(** [re.search("^" + r + "$", s)] is not [None].  Without [re.MULTILINE],
    [^] holds at the start of [s] only, and [$] holds at the end of [s] and
    just before a line feed that ends [s].  All twelve patterns of
    [blockType] carry both anchors. *)
Definition ends_with_newline (s : str) : bool :=
  match rev s with
  | c :: _ => (c =? 10)%N
  | [] => false
  end.

Definition search_anchored (r : regex) (s : str) : bool :=
  fullmatch r s || (ends_with_newline s && fullmatch r (removelast s)).

End Re.
Import Re.

(** ** [xml.etree.ElementTree] *)

Module ET.

(** An element: its tag in Clark notation ([{uri}local]), its attributes,
    the text before its first child, its children, and the text after its
    end tag.  An absent [text] or [tail] is the empty string. *)
#[warnings="-register-all"]
Inductive Element : Type :=
  Elem (tag : str) (attrib : list (str * str)) (text : str)
       (children : list Element) (tail : str).

Definition tag (e : Element) : str := let (t, _, _, _, _) := e in t.
Definition attrib (e : Element) : list (str * str) := let (_, a, _, _, _) := e in a.
Definition text (e : Element) : str := let (_, _, t, _, _) := e in t.
Definition children (e : Element) : list Element := let (_, _, _, c, _) := e in c.
Definition tail (e : Element) : str := let (_, _, _, _, t) := e in t.

(** [e.get(key, default)] *)
Fixpoint lookup (key : str) (a : list (str * str)) (default : str) : str :=
  match a with
  | [] => default
  | (k, v) :: a' => if str_eqb k key then v else lookup key a' default
  end.

Definition get (e : Element) (key default : str) : str :=
  lookup key (attrib e) default.

(** [''.join(e.itertext())]: the text of [e] and of everything below it, in
    document order. *)
Fixpoint inner_text (e : Element) : str :=
  match e with
  | Elem _ _ t cs _ =>
    t ++ concat (map (fun c => inner_text c ++ tail c) cs)
  end.

(** [e.iter()]: [e] and everything below it, in document order. *)
Fixpoint iter (e : Element) : list Element :=
  match e with
  | Elem _ _ _ cs _ => e :: concat (map iter cs)
  end.

(** The elements strictly below [e]. *)
Definition descendants (e : Element) : list Element :=
  concat (map iter (children e)).

(** [e.findall('.//' + t)] with the prefix of [t] resolved *)
Definition findall_descendants (e : Element) (t : str) : list Element :=
  filter (fun d => str_eqb (tag d) t) (descendants e).

(** [e.find('.//' + a + '/' + b)]: the first child tagged [b] of an element
    tagged [a] below [e]. *)
Definition find_descendant_child (e : Element) (a b : str) : option Element :=
  hd_error
    (concat (map (fun d => filter (fun c => str_eqb (tag c) b) (children d))
                 (findall_descendants e a))).

(** Number of elements of a tree, the measure [__extract_list_text]
    decreases along. *)
Fixpoint size (e : Element) : nat :=
  match e with
  | Elem _ _ _ cs _ => S (list_sum (map size cs))
  end.

End ET.

(** ** The tokenizer of [rag.nlp], taken as given *)

Module rag_tokenizer.

(** [rag_tokenizer.tokenize] returns the tokens of a text separated by
    spaces; [rag_tokenizer.tag] returns the part-of-speech label of a
    token. *)
Class Tokenizer : Type := {
  tokenize : str -> str;
  tag : str -> str
}.

(** A tokenizer for examples: the text is its own tokenization and no token
    is labelled. *)
Definition plain : Tokenizer := {|
  tokenize := fun s => s;
  tag := fun _ => []
|}.

End rag_tokenizer.

(** ** [RAGFlowOdtParser] *)

Module RAGFlowOdtParser.

Import ET.

(** [NS] *)
Definition NS_office : str := lit "urn:oasis:names:tc:opendocument:xmlns:office:1.0".
Definition NS_text : str := lit "urn:oasis:names:tc:opendocument:xmlns:text:1.0".
Definition NS_table : str := lit "urn:oasis:names:tc:opendocument:xmlns:table:1.0".
Definition NS_style : str := lit "urn:oasis:names:tc:opendocument:xmlns:style:1.0".

(** ['{' + ns + '}' + local] *)
Definition qname (ns : str) (local : string) : str :=
  lit "{" ++ ns ++ lit "}" ++ lit local.

(** *** [__extract_list_text] *)

Section ListText.

(** The recursive call, on a nested list. *)
Variable rec : Element -> nat -> bool -> option (list str).

(** [for child in item], with [item_texts] as the loop state. *)
Fixpoint item_children (level : nat) (cs : list Element) (item_texts : list str)
  : option (list str) :=
  match cs with
  | [] => Some item_texts
  | child :: cs' =>
    if str_eqb (tag child) (qname NS_text "p") then
      let text := strip (inner_text child) in
      item_children level cs'
        (match text with [] => item_texts | _ => item_texts ++ [text] end)
    else if str_eqb (tag child) (qname NS_text "list") then
      let nested_ordered :=
        (0 <=? find (lower (get child (qname NS_text "style-name") [])) (lit "num"))%Z in
      nested_texts <- rec child (level + 1) nested_ordered ;;
      item_children level cs' (item_texts ++ nested_texts)
    else item_children level cs' item_texts
  end.

(** [for item in list_element.findall(...)], with [texts] and [item_num] as
    the loop state. *)
Fixpoint items_loop (level : nat) (is_ordered : bool) (items : list Element)
         (texts : list str) (item_num : nat) : option (list str) :=
  match items with
  | [] => Some texts
  | item :: items' =>
    item_texts <- item_children level (children item) [] ;;
    match item_texts with
    | [] => items_loop level is_ordered items' texts item_num
    | first :: rest =>
      let prefix := repeat_str (lit "  ") level in
      let bullet := if is_ordered then str_of_nat item_num ++ lit "." else lit "•" in
      let item_num' := if is_ordered then item_num + 1 else item_num in
      let texts := texts ++ [prefix ++ bullet ++ lit " " ++ first] in
      let texts := texts ++ map (fun text => prefix ++ lit "  " ++ text) rest in
      items_loop level is_ordered items' texts item_num'
    end
  end.

End ListText.

(** The recursion is on a nested list, which lies strictly below
    [list_element]; [fuel] bounds its depth. *)
Fixpoint extract_list_text_fuel (fuel : nat) (list_element : Element)
         (level : nat) (is_ordered : bool) : option (list str) :=
  match fuel with
  | O => None
  | S fuel' =>
    items_loop (extract_list_text_fuel fuel') level is_ordered
      (findall_descendants list_element (qname NS_text "list-item")) [] 1
  end.

Definition extract_list_text (list_element : Element) (level : nat)
           (is_ordered : bool) : option (list str) :=
  extract_list_text_fuel (size list_element) list_element level is_ordered.

(** *** [blockType], the local function of [__compose_table_content] *)

(** The labels [blockType] returns. *)
Inductive BlockType : Type :=
  Dt | DT | Nu | Ca | En | NE | Sg | Tx | Lx | Nr | Ot.

Definition BlockType_eq_dec (a b : BlockType) : {a = b} + {a <> b}.
Proof. decide equality. Defined.

Definition BlockType_eqb (a b : BlockType) : bool :=
  if BlockType_eq_dec a b then true else false.

Definition all_block_types : list BlockType :=
  [Dt; DT; Nu; Ca; En; NE; Sg; Tx; Lx; Nr; Ot].

Definition digit : regex := Cls (in_range 48 57).
Definition upper (c : char) : bool := in_range 65 90 c.
Definition lower_case (c : char) : bool := in_range 97 122 c.
Definition is_digit (c : char) : bool := in_range 48 57 c.

(** [(20|19)[0-9]{2}] *)
Definition year : regex := Cat (Alt (Lit "20") (Lit "19")) (Rep 2 digit).

(** [pattern]: the bodies of the twelve patterns, each between [^] and [$],
    with the label of each, in the order of the source. *)
Definition pattern : list (regex * BlockType) :=
  [ (* ^(20|19)[0-9]{2}[年/-][0-9]{1,2}[月/-][0-9]{1,2}日*$ *)
    (Seq [year; Cls (one_of (lit "年/-")); RepRange 1 2 digit;
          Cls (one_of (lit "月/-")); RepRange 1 2 digit; Star (Lit "日")], Dt);
    (* ^(20|19)[0-9]{2}年$ *)
    (Seq [year; Lit "年"], Dt);
    (* ^(20|19)[0-9]{2}[年/-][0-9]{1,2}月*$ *)
    (Seq [year; Cls (one_of (lit "年/-")); RepRange 1 2 digit; Star (Lit "月")], Dt);
    (* ^[0-9]{1,2}[月/-][0-9]{1,2}日*$ *)
    (Seq [RepRange 1 2 digit; Cls (one_of (lit "月/-")); RepRange 1 2 digit;
          Star (Lit "日")], Dt);
    (* ^第*[一二三四1-4]季度$ *)
    (Seq [Star (Lit "第"); Cls (fun c => one_of (lit "一二三四") c || in_range 49 52 c);
          Lit "季度"], Dt);
    (* ^(20|19)[0-9]{2}年*[一二三四1-4]季度$ *)
    (Seq [year; Star (Lit "年");
          Cls (fun c => one_of (lit "一二三四") c || in_range 49 52 c); Lit "季度"], Dt);
    (* ^(20|19)[0-9]{2}[ABCDE]$ *)
    (Seq [year; Cls (one_of (lit "ABCDE"))], DT);
    (* ^[0-9.,+%/ -]+$ *)
    (Plus (Cls (fun c => is_digit c || one_of (lit ".,+%/ -") c)), Nu);
    (* ^[0-9A-Z/\._~-]+$ *)
    (Plus (Cls (fun c => is_digit c || upper c || one_of (lit "/._~-") c)), Ca);
    (* ^[A-Z]*[a-z' -]+$ *)
    (Seq [Star (Cls upper); Plus (Cls (fun c => lower_case c || one_of (lit "' -") c))], En);
    (* ^[0-9.,+-]+[0-9A-Za-z/$￥%<>（）()' -]+$ *)
    (Seq [Plus (Cls (fun c => is_digit c || one_of (lit ".,+-") c));
          Plus (Cls (fun c => is_digit c || upper c || lower_case c
                              || one_of (lit "/$￥%<>（）()' -") c))], NE);
    (* ^.{1}$ *)
    (Rep 1 Dot, Sg) ].

(** [for p, n in pattern: if re.search(p, b): return n] *)
Fixpoint first_match (ps : list (regex * BlockType)) (b : str) : option BlockType :=
  match ps with
  | [] => None
  | (p, n) :: ps' => if search_anchored p b then Some n else first_match ps' b
  end.

Section Compose.

Context {T : rag_tokenizer.Tokenizer}.

(** [tks]: the tokens of more than one character. *)
Definition long_tokens (b : str) : list str :=
  filter (fun t => 1 <? length t) (split (rag_tokenizer.tokenize b)).

Definition blockType (b : str) : BlockType :=
  match first_match pattern b with
  | Some n => n
  | None =>
    let tks := long_tokens b in
    if 3 <? length tks then
      if length tks <? 12 then Tx else Lx
    else if (length tks =? 1) && str_eqb (rag_tokenizer.tag (nth 0 tks [])) (lit "nr")
    then Nr
    else Ot
  end.

(** *** Data frames *)

(** A cell of the frame [pd.DataFrame(rows)]: a string of [rows], or the
    [None] with which pandas fills a row shorter than the longest one. *)
Definition cell : Type := option str.

(** [str(x)] for a cell; [str(None)] is ["None"]. *)
Definition py_str (c : cell) : str :=
  match c with
  | Some s => s
  | None => lit "None"
  end.

(** A frame, as the list of its rows; every row of a frame has the length of
    its column index. *)
Definition DataFrame : Type := list (list cell).

(** [pd.DataFrame(rows)] for a list of lists of strings *)
Definition pd_DataFrame (rows : list (list str)) : DataFrame :=
  let width := fold_right Nat.max 0 (map (@length str) rows) in
  map (fun r => map Some r ++ repeat None (width - length r)) rows.

(** [df.iloc[i, :]]; [None] is [IndexError] *)
Definition iloc_row (df : DataFrame) (i : nat) : option (list cell) :=
  nth_error df i.

(** [df.iloc[i, j]] *)
Definition iloc (df : DataFrame) (i j : nat) : option cell :=
  r <- nth_error df i ;; nth_error r j.

(** A row position that may be negative: [-1] is the last row. *)
Definition row_position (df : DataFrame) (z : Z) : option nat :=
  let n := Z.of_nat (length df) in
  if (0 <=? z)%Z then (if (z <? n)%Z then Some (Z.to_nat z) else None)
  else if (- z <=? n)%Z then Some (Z.to_nat (n + z)) else None.

(** [df.iloc[z, j]] for an integer [z] *)
Definition iloc_z (df : DataFrame) (z : Z) (j : nat) : option cell :=
  i <- row_position df z ;; iloc df i j.

(** *** [Counter] and [max(c.items(), key=lambda x: x[1])[0]] *)

(** A [Counter] keeps its keys in the order they were first counted. *)
Fixpoint counter_add (x : BlockType) (c : list (BlockType * nat))
  : list (BlockType * nat) :=
  match c with
  | [] => [(x, 1)]
  | (k, n) :: c' =>
    if BlockType_eqb k x then (k, S n) :: c' else (k, n) :: counter_add x c'
  end.

Definition Counter (l : list BlockType) : list (BlockType * nat) :=
  fold_left (fun c x => counter_add x c) l [].

(** [max] keeps the first of the items with the largest count. *)
Fixpoint max_item (best : BlockType * nat) (items : list (BlockType * nat))
  : BlockType * nat :=
  match items with
  | [] => best
  | it :: items' => max_item (if snd best <? snd it then it else best) items'
  end.

(** [None] is the [ValueError] of [max] on an empty sequence. *)
Definition most_common (l : list BlockType) : option BlockType :=
  match Counter l with
  | [] => None
  | it :: items => Some (fst (max_item it items))
  end.

(** *** [__compose_table_content] *)

(** [[blockType(str(df.iloc[r, j])) for j in range(len(df.iloc[r, :]))]] *)
Definition row_types (df : DataFrame) (r : nat) : option (list BlockType) :=
  row <- iloc_row df r ;;
  mapM (fun j => c <- iloc df r j ;; Some (blockType (py_str c)))
       (range 0 (length row)).

(** [max_type], over the cells of the rows [1 .. len(df) - 1] *)
Definition max_type_of (df : DataFrame) : option BlockType :=
  tys <- mapM (row_types df) (range 1 (length df)) ;;
  most_common (concat tys).

(** [for r in range(1, len(df))], with [hdrows] as the loop state *)
Fixpoint hdrows_loop (df : DataFrame) (max_type : BlockType) (rs : list nat)
         (hdrows : list nat) : option (list nat) :=
  match rs with
  | [] => Some hdrows
  | r :: rs' =>
    row <- row_types df r ;;
    tys <- most_common row ;;
    hdrows_loop df max_type rs'
      (if BlockType_eqb tys max_type then hdrows else hdrows ++ [r])
  end.

Definition header_rows (df : DataFrame) (max_type : BlockType) : option (list nat) :=
  if BlockType_eqb max_type Nu
  then hdrows_loop df max_type (range 1 (length df)) [0]
  else Some [0].

(** [while t > 0: if hr[t] - hr[t - 1] > 1: hr = hr[t:]; break ...] *)
Fixpoint trim_loop (hr : list Z) (t : nat) : list Z :=
  match t with
  | O => hr
  | S t' =>
    if (1 <? nth t hr 0 - nth t' hr 0)%Z then skipn t hr else trim_loop hr t'
  end.

(** [hr], the offsets of the header rows kept for the data row [i].  For an
    empty [hr] Python starts the loop at [t = -1] and leaves at once, as the
    loop from [0] does here. *)
Definition header_offsets (hdrows : list nat) (i : nat) : list Z :=
  let hr := map (fun r => (Z.of_nat r - Z.of_nat i)%Z) hdrows in
  let hr := filter (fun r => (r <? 0)%Z) hr in
  trim_loop hr (length hr - 1).

(** [for h in hr], with the list [t] as the loop state *)
Fixpoint header_values (df : DataFrame) (i j : nat) (hr : list Z) (t : list str)
  : option (list str) :=
  match hr with
  | [] => Some t
  | h :: hr' =>
    c <- iloc_z df (Z.of_nat i + h) j ;;
    let x := strip (py_str c) in
    header_values df i j hr' (if mem x t then t else t ++ [x])
  end.

(** The entry of [headers] for column [j] *)
Definition header_label (df : DataFrame) (i : nat) (hr : list Z) (j : nat)
  : option str :=
  t <- header_values df i j hr [] ;;
  let t := join (lit ",") t in
  Some (match t with [] => t | _ => t ++ lit ": " end).

(** [for j in range(len(df.iloc[i, :]))], with [cells] as the loop state *)
Fixpoint cells_loop (df : DataFrame) (i : nat) (headers : list str)
         (js : list nat) (cells : list str) : option (list str) :=
  match js with
  | [] => Some cells
  | j :: js' =>
    c <- iloc df i j ;;
    match py_str c with
    | [] => cells_loop df i headers js' cells
    | _ =>
      h <- nth_error headers j ;;
      cells_loop df i headers js' (cells ++ [h ++ py_str c])
    end
  end.

(** The line of the data row [i] *)
Definition row_line (df : DataFrame) (hdrows : list nat) (i : nat) : option str :=
  let hr := header_offsets hdrows i in
  row <- iloc_row df i ;;
  headers <- mapM (header_label df i hr) (range 0 (length row)) ;;
  row <- iloc_row df i ;;
  cells <- cells_loop df i headers (range 0 (length row)) [] ;;
  Some (join (lit ";") cells).

(** [for i in range(1, len(df))], with [lines] as the loop state *)
Fixpoint lines_loop (df : DataFrame) (hdrows : list nat) (rows : list nat)
         (lines : list str) : option (list str) :=
  match rows with
  | [] => Some lines
  | i :: rows' =>
    if existsb (Nat.eqb i) hdrows then lines_loop df hdrows rows' lines
    else
      line <- row_line df hdrows i ;;
      lines_loop df hdrows rows' (lines ++ [line])
  end.

Definition compose_table_content (df : DataFrame) : option (list str) :=
  if length df <? 2 then Some []
  else
    max_type <- max_type_of df ;;
    row0 <- iloc_row df 0 ;;
    let colnm := length row0 in
    hdrows <- header_rows df max_type ;;
    lines <- lines_loop df hdrows (range 1 (length df)) [] ;;
    if 3 <? colnm then Some lines
    else Some [join newline lines].

(** *** [__extract_table_content] *)

(** [for row in table_element.findall('.//table:table-row')], with [rows]
    as the loop state *)
Fixpoint table_rows (trs : list Element) (rows : list (list str)) : list (list str) :=
  match trs with
  | [] => rows
  | row :: trs' =>
    let cells :=
      map (fun cell => strip (inner_text cell))
          (findall_descendants row (qname NS_table "table-cell")) in
    table_rows trs' (match cells with [] => rows | _ => rows ++ [cells] end)
  end.

Definition extract_table_content (table_element : Element) : option (list str) :=
  let rows := table_rows (findall_descendants table_element (qname NS_table "table-row")) [] in
  match rows with
  | [] => Some []
  | _ => compose_table_content (pd_DataFrame rows)
  end.

(** *** [__call__], from the parsed [content.xml] on *)

(** A section is a text with the image of the paragraph, which this parser
    never extracts. *)
Definition Image : Type := Empty_set.
Definition Section_ : Type := (str * option Image)%type.

(** [for element in body], with [secs] and [tbls] as the loop state *)
Fixpoint body_loop (elements : list Element) (secs : list Section_)
         (tbls : list (list str)) : option (list Section_ * list (list str)) :=
  match elements with
  | [] => Some (secs, tbls)
  | element :: elements' =>
    let tag := replace (ET.tag element) (lit "{" ++ NS_text ++ lit "}") (lit "text:") in
    let tag := replace tag (lit "{" ++ NS_table ++ lit "}") (lit "table:") in
    if str_eqb tag (lit "text:p") || str_eqb tag (lit "text:h") then
      let para_text := strip (inner_text element) in
      body_loop elements'
        (match para_text with [] => secs | _ => secs ++ [(para_text, None)] end) tbls
    else if str_eqb tag (lit "text:list") then
      let style_name := get element (qname NS_text "style-name") [] in
      let is_ordered :=
        contains (lower style_name) (lit "num") || contains (lower style_name) (lit "number") in
      list_texts <- extract_list_text element 0 is_ordered ;;
      let kept := filter (fun t => match strip t with [] => false | _ => true end) list_texts in
      body_loop elements' (secs ++ map (fun t => (t, None)) kept) tbls
    else if str_eqb tag (lit "table:table") then
      table_content <- extract_table_content element ;;
      body_loop elements' secs
        (match table_content with [] => tbls | _ => tbls ++ [table_content] end)
    else body_loop elements' secs tbls
  end.

(** [__call__] once [root = ET.fromstring(content_xml)] has returned; opening
    the archive and parsing the XML come before and may raise. *)
Definition call_parsed (root : Element) : option (list Section_ * list (list str)) :=
  match find_descendant_child root (qname NS_office "body") (qname NS_office "text") with
  | None => Some ([], [])
  | Some body => body_loop (children body) [] []
  end.

End Compose.

End RAGFlowOdtParser.

(** * Example documents *)

Module Examples.

Import ET RAGFlowOdtParser.

(** [<text:p>s</text:p>] *)
Definition p (s : string) : Element := Elem (qname NS_text "p") [] (lit s) [] [].

Definition list_item (cs : list Element) : Element :=
  Elem (qname NS_text "list-item") [] [] cs [].

(** [<text:list>], without a style name *)
Definition list_ (items : list Element) : Element :=
  Elem (qname NS_text "list") [] [] items [].

Definition table_cell (s : string) : Element :=
  Elem (qname NS_table "table-cell") [] [] [p s] [].

Definition table_row (cells : list string) : Element :=
  Elem (qname NS_table "table-row") [] [] (map table_cell cells) [].

Definition table (rows : list (list string)) : Element :=
  Elem (qname NS_table "table") [] [] (map table_row rows) [].

(** The root of a [content.xml] with the elements [body] in its
    [office:text]. *)
Definition document (body : list Element) : Element :=
  Elem (qname NS_office "document-content") [] []
       [Elem (qname NS_office "body") [] []
             [Elem (qname NS_office "text") [] [] body []] []] [].

(** A [content.xml] whose [office:body] holds a paragraph and no
    [office:text]. *)
Definition document_without_text : Element :=
  Elem (qname NS_office "document-content") [] []
       [Elem (qname NS_office "body") [] [] [p "A"] []] [].

(** One item with the text [A] and a nested list of one item [B]. *)
Definition nested_list : Element :=
  list_ [list_item [p "A"; list_ [list_item [p "B"]]]].

(** A grid of strings as a frame. *)
Definition grid (rows : list (list string)) : DataFrame :=
  pd_DataFrame (map (map lit) rows).

End Examples.

(** * Specification-side definitions *)

Module Spec.

Import RAGFlowOdtParser.

Section Firsts.

Variable A : Type.
Variable eqb : A -> A -> bool.

(** The distinct elements of a list, each at its first occurrence. *)
Fixpoint firsts (l : list A) : list A :=
  match l with
  | [] => []
  | x :: l' => x :: filter (fun y => negb (eqb y x)) (firsts l')
  end.

End Firsts.

(** [cnt l t]: how often the label [t] occurs in [l]. *)
Abbreviation cnt := (count_occ BlockType_eq_dec).

(** [t] is the majority of [l], the first encountered winning a tie: [t]
    occurs at least as often as any other element, and strictly more often
    than every element met before the first [t]. *)
Definition first_majority (l : list BlockType) (t : BlockType) : Prop :=
  exists l1 l2,
    l = l1 ++ t :: l2 /\ ~ In t l1 /\
    (forall u, cnt l u <= cnt l t) /\
    (forall u, In u l1 -> cnt l u < cnt l t).

(** The offset of row [r] from row [i]. *)
Definition offset (i r : nat) : Z := (Z.of_nat r - Z.of_nat i)%Z.

(** Header rows above [i], read from the closest one upward while each is
    next to the one before it. *)
Fixpoint contiguous_run (prev : nat) (above : list nat) : list nat :=
  match above with
  | [] => []
  | r :: rest => if 1 <? prev - r then [] else r :: contiguous_run r rest
  end.

(** The nearest contiguous run of header rows strictly above row [i], top
    row first. *)
Definition nearest_header_run (hdrows : list nat) (i : nat) : list nat :=
  match rev (filter (fun r => r <? i) hdrows) with
  | [] => []
  | r :: rest => rev (r :: contiguous_run r rest)
  end.

(** Values joined with commas, with a colon and a space after them unless
    the joined text is empty. *)
Definition label_of (values : list str) : str :=
  match join (lit ",") values with
  | [] => []
  | s => s ++ lit ": "
  end.

(** The rows of [rows] filled up with [s] to the length of the longest. *)
Definition fill_missing (s : str) (rows : list (list str)) : list (list str) :=
  let width := fold_right Nat.max 0 (map (@length str) rows) in
  map (fun r => r ++ repeat s (width - length r)) rows.

(** Every row of the frame has [w] cells. *)
Definition rect (w : nat) (df : DataFrame) : Prop :=
  Forall (fun r => length r = w) df.

(** The cell at row [i] and column [j] of a frame. *)
Definition cell_at (df : DataFrame) (i j : nat) : cell :=
  nth j (nth i df []) None.

(** The value of a cell as a header: its text, trimmed. *)
Definition cell_value (df : DataFrame) (i j : nat) : str :=
  strip (py_str (cell_at df i j)).

(** A frame with every cell replaced by its text. *)
Definition rendered (df : DataFrame) : DataFrame :=
  map (map (fun c => Some (py_str c))) df.

(** The rows from [1] on that are not header rows. *)
Definition data_rows (df : DataFrame) (hdrows : list nat) : list nat :=
  filter (fun i => negb (existsb (Nat.eqb i) hdrows)) (range 1 (length df)).

(** No element below [root] tagged [office:body] has a child tagged
    [office:text]. *)
Definition no_body_text (root : ET.Element) : Prop :=
  forall b t,
    In b (ET.descendants root) -> ET.tag b = qname NS_office "body" ->
    In t (ET.children b) -> ET.tag t <> qname NS_office "text".

Section WithTokenizer.

Context {T : rag_tokenizer.Tokenizer}.

(** The labels of the cells of row [i]. *)
Definition types_of_row (df : DataFrame) (i : nat) : list BlockType :=
  map (fun c => blockType (py_str c)) (nth i df []).

(** The labels of the cells of the rows [1 .. len(df) - 1], row by row. *)
Definition content_types (df : DataFrame) : list BlockType :=
  concat (map (types_of_row df) (range 1 (length df))).

(** The majority label of row [r], when the row has a cell. *)
Definition row_majority (df : DataFrame) (r : nat) : BlockType :=
  match most_common (types_of_row df r) with
  | Some t => t
  | None => Ot
  end.

End WithTokenizer.

End Spec.

(** * Further specification-side definitions *)

Module Reading.

Import ET RAGFlowOdtParser Spec.

(** [bool(s)] for a string *)
Definition nonempty (s : str) : bool :=
  match s with
  | [] => false
  | _ => true
  end.

(** The label of column [j] for row [i]: the values of the nearest header
    run, each once, joined and followed by a colon. *)
Definition column_label (df : DataFrame) (hdrows : list nat) (i j : nat) : str :=
  label_of (firsts str_eqb
              (map (fun r => cell_value df r j) (nearest_header_run hdrows i))).

(** The line of row [i] of a frame of [w] columns: its non-empty cells, each
    after the label of its column, joined with semicolons. *)
Definition line_of (df : DataFrame) (hdrows : list nat) (w i : nat) : str :=
  join (lit ";")
       (map (fun j => column_label df hdrows i j ++ py_str (cell_at df i j))
            (filter (fun j => nonempty (py_str (cell_at df i j))) (range 0 w))).

(** The label a column gets from row [0] alone. *)
Definition top_label (df : DataFrame) (j : nat) : str :=
  label_of [cell_value df 0 j].

(** The result for the lines of a frame of [w] columns. *)
Definition blocks (w : nat) (lines : list str) : list str :=
  if 3 <? w then lines else [join newline lines].

(** A character of a plain number: a digit, or one of [.,+%] and the
    space. *)
Definition plain_number_char (c : char) : bool :=
  is_digit c || one_of (lit ".,+% ") c.

(** No string made of characters accepted by [q] is matched by [r]. *)
Definition never (q : char -> bool) (r : regex) : Prop :=
  forall s, matches r s -> forallb q s = false.

(** The classes of the patterns for [Nu], [Ca] and [En]. *)
Definition nu_char (c : char) : bool := is_digit c || one_of (lit ".,+%/ -") c.
Definition ca_char (c : char) : bool :=
  is_digit c || upper c || one_of (lit "/._~-") c.
Definition en_char (c : char) : bool := lower_case c || one_of (lit "' -") c.

(** A lower bound on the length of the strings a pattern body matches. *)
Fixpoint min_length (r : regex) : nat :=
  match r with
  | Void => 0
  | Eps => 0
  | Cls _ => 1
  | Cat r1 r2 => min_length r1 + min_length r2
  | Alt r1 r2 => Nat.min (min_length r1) (min_length r2)
  | Star _ => 0
  end.

(** The cell texts of a [table:table-row] element. *)
Definition row_cells (row : Element) : list str :=
  map (fun cell => strip (inner_text cell))
      (findall_descendants row (qname NS_table "table-cell")).

(** The rows [__extract_table_content] reads from a table element. *)
Definition extracted_rows (table_element : Element) : list (list str) :=
  table_rows (findall_descendants table_element (qname NS_table "table-row")) [].

(** [bool(l)] for a list *)
Definition has_items {A : Type} (l : list A) : bool :=
  match l with
  | [] => false
  | _ => true
  end.

(** The lines of the texts [ts], numbered from [k] on. *)
Fixpoint numbered (k : nat) (prefix : str) (ts : list str) : list str :=
  match ts with
  | [] => []
  | t :: ts' =>
    (prefix ++ str_of_nat k ++ lit "." ++ lit " " ++ t) :: numbered (S k) prefix ts'
  end.

(** [<text:p>t</text:p>] for a text [t] *)
Definition para (t : str) : Element := Elem (qname NS_text "p") [] t [] [].

(** A list whose items hold one paragraph each, with the texts [ts]. *)
Definition flat_list (ts : list str) : Element :=
  Elem (qname NS_text "list") [] []
       (map (fun t => Elem (qname NS_text "list-item") [] [] [para t] []) ts) [].

(** The tag of a body element with the prefixes [text:] and [table:] in
    place of the namespaces, as [__call__] compares it. *)
Definition short_tag (t : str) : str :=
  replace (replace t (lit "{" ++ NS_text ++ lit "}") (lit "text:"))
          (lit "{" ++ NS_table ++ lit "}") (lit "table:").

(** [sub] occurs in [s]. *)
Definition occurs (s sub : str) : Prop :=
  exists pre post, s = pre ++ sub ++ post.

End Reading.

Import ET RAGFlowOdtParser Spec.

(** * Properties *)

(** ** Exceptions *)

Lemma bind_Some {A B : Type} (m : option A) (k : A -> option B) (b : B) :
  bind m k = Some b <-> exists a, m = Some a /\ k a = Some b.
Proof.
  destruct m as [a|]; simpl; split.
  - intros H. exists a. split; [reflexivity | exact H].
  - intros (a' & Ha & Hk). injection Ha as <-. exact Hk.
  - discriminate.
  - intros (a' & Ha & _). discriminate.
Qed.

Lemma mapM_total {A B : Type} (f : A -> option B) (g : A -> B) (l : list A) :
  (forall a, In a l -> f a = Some (g a)) -> mapM f l = Some (map g l).
Proof.
  induction l as [|a l IH]; intros H; simpl.
  - reflexivity.
  - rewrite (H a (or_introl eq_refl)). simpl.
    rewrite IH by (intros x Hx; apply H; right; exact Hx).
    reflexivity.
Qed.

Lemma mapM_ext_in {A B : Type} (f g : A -> option B) (l : list A) :
  (forall a, In a l -> f a = g a) -> mapM f l = mapM g l.
Proof.
  induction l as [|a l IH]; intros H; simpl.
  - reflexivity.
  - rewrite (H a (or_introl eq_refl)).
    rewrite IH by (intros x Hx; apply H; right; exact Hx).
    reflexivity.
Qed.

Lemma map_nth_seq {A B : Type} (f : A -> B) (d : A) (l : list A) :
  map (fun j => f (nth j l d)) (seq 0 (length l)) = map f l.
Proof.
  induction l as [|a l IH]; simpl.
  - reflexivity.
  - f_equal. rewrite <- seq_shift, map_map. exact IH.
Qed.

Lemma in_range_iff a b i : In i (range a b) <-> a <= i < b.
Proof. unfold range. rewrite in_seq. lia. Qed.

Lemma in_range_bounds a b i : In i (range a b) -> a <= i < b.
Proof. apply in_range_iff. Qed.

Lemma range_0 n : range 0 n = seq 0 n.
Proof. unfold range. now rewrite Nat.sub_0_r. Qed.

(** ** First occurrences *)

Section FirstsFacts.

Variable A : Type.
Variable eqb : A -> A -> bool.
Hypothesis eqb_spec : forall x y, eqb x y = true <-> x = y.

Lemma eqb_refl' x : eqb x x = true.
Proof. now apply eqb_spec. Qed.

Lemma eqb_neq x y : eqb x y = false <-> x <> y.
Proof.
  destruct (eqb x y) eqn:E.
  - apply eqb_spec in E. split; [discriminate | contradiction].
  - split; [| reflexivity]. intros _ H. apply eqb_spec in H. congruence.
Qed.

Lemma filter_filter_comm (p q : A -> bool) (l : list A) :
  filter p (filter q l) = filter q (filter p l).
Proof.
  induction l as [|a l IH]; simpl; [reflexivity|].
  destruct (q a) eqn:Q, (p a) eqn:P; simpl; rewrite ?Q, ?P, IH; reflexivity.
Qed.

Lemma filter_all (q : A -> bool) (l : list A) :
  (forall y, In y l -> q y = true) -> filter q l = l.
Proof.
  induction l as [|a l IH]; intros H; simpl; [reflexivity|].
  rewrite (H a (or_introl eq_refl)). f_equal. apply IH.
  intros y Hy. apply H. right. exact Hy.
Qed.

Lemma filter_split (p : A -> bool) (l f1 f2 : list A) t :
  filter p l = f1 ++ t :: f2 ->
  exists g1 g2, l = g1 ++ t :: g2 /\ filter p g1 = f1 /\ filter p g2 = f2 /\ p t = true.
Proof.
  revert f1. induction l as [|c l IH]; intros f1 H; simpl in H.
  - destruct f1; discriminate.
  - destruct (p c) eqn:P.
    + destruct f1 as [|d f1]; simpl in H.
      * injection H as -> H. exists [], l. simpl. auto.
      * injection H as <- H. destruct (IH _ H) as (g1 & g2 & -> & <- & <- & Pt).
        exists (c :: g1), g2. simpl. rewrite P. auto.
    + destruct (IH _ H) as (g1 & g2 & -> & <- & <- & Pt).
      exists (c :: g1), g2. simpl. rewrite P. auto.
Qed.

Lemma firsts_filter (p : A -> bool) (l : list A) :
  firsts eqb (filter p l) = filter p (firsts eqb l).
Proof.
  induction l as [|a l IH]; simpl; [reflexivity|].
  destruct (p a) eqn:P; simpl.
  - rewrite IH. f_equal. apply filter_filter_comm.
  - rewrite IH, filter_filter_comm. symmetry. apply filter_all.
    intros y Hy. apply filter_In in Hy. destruct Hy as [_ Py].
    destruct (eqb y a) eqn:E; [| reflexivity].
    apply eqb_spec in E. congruence.
Qed.

Lemma in_firsts (l : list A) x : In x (firsts eqb l) <-> In x l.
Proof.
  induction l as [|a l IH]; simpl; [tauto|].
  rewrite filter_In, IH. split.
  - intros [H | [H _]]; auto.
  - intros [H | H]; auto.
    destruct (eqb x a) eqn:E.
    + apply eqb_spec in E. left. congruence.
    + right. split; [exact H | reflexivity].
Qed.

Lemma firsts_snoc (l : list A) x :
  firsts eqb (l ++ [x]) =
  if existsb (fun y => eqb y x) l then firsts eqb l else firsts eqb l ++ [x].
Proof.
  induction l as [|a l IH]; simpl; [reflexivity|].
  rewrite IH. destruct (eqb a x) eqn:E; simpl.
  - apply eqb_spec in E. subst a.
    destruct (existsb (fun y => eqb y x) l); [reflexivity|].
    rewrite filter_app. simpl. rewrite eqb_refl'. simpl.
    now rewrite app_nil_r.
  - destruct (existsb (fun y => eqb y x) l); [reflexivity|].
    rewrite filter_app. simpl.
    assert (eqb x a = false) as ->.
    { apply eqb_neq. apply eqb_neq in E. congruence. }
    reflexivity.
Qed.

(** Whatever stands before [t] in [firsts l] covers the part of [l] before
    the first [t]. *)
Lemma firsts_split (l : list A) f1 t f2 :
  firsts eqb l = f1 ++ t :: f2 ->
  exists l1 l2, l = l1 ++ t :: l2 /\ ~ In t l1 /\ forall u, In u l1 -> In u f1.
Proof.
  revert f1 f2. induction l as [|a l IH]; intros f1 f2 H; simpl in H.
  - destruct f1; discriminate.
  - destruct f1 as [|b f1]; simpl in H.
    + injection H as -> _. exists [], l. simpl. repeat split; tauto.
    + injection H as <- H.
      apply filter_split in H. destruct H as (g1 & g2 & Hl & <- & _ & Hta).
      apply negb_true_iff, eqb_neq in Hta.
      destruct (IH _ _ Hl) as (l1 & l2 & -> & Hnot & Hcov).
      exists (a :: l1), l2. simpl. repeat split.
      * intros [Hat | Hin]; [congruence | contradiction].
      * intros u [<- | Hu]; [left; reflexivity|].
        destruct (eqb u a) eqn:E.
        -- apply eqb_spec in E. left. congruence.
        -- right. apply filter_In. split; [apply Hcov, Hu|].
           now rewrite E.
Qed.

End FirstsFacts.

(** ** [Counter] and [max] *)

Lemma BlockType_eqb_spec a b : BlockType_eqb a b = true <-> a = b.
Proof.
  unfold BlockType_eqb. destruct (BlockType_eq_dec a b); split; congruence.
Qed.

Lemma BlockType_eqb_refl a : BlockType_eqb a a = true.
Proof. now apply BlockType_eqb_spec. Qed.

Lemma BlockType_eqb_false a b : BlockType_eqb a b = false <-> a <> b.
Proof. apply (@eqb_neq _ _ BlockType_eqb_spec). Qed.

Lemma NoDup_firsts (l : list BlockType) : NoDup (firsts BlockType_eqb l).
Proof.
  induction l as [|a l IH]; simpl; constructor.
  - rewrite filter_In. intros [_ H]. now rewrite BlockType_eqb_refl in H.
  - now apply NoDup_filter.
Qed.

Lemma in_firsts_labels (l : list BlockType) x :
  In x (firsts BlockType_eqb l) <-> In x l.
Proof. exact (@in_firsts _ _ BlockType_eqb_spec l x). Qed.

Lemma existsb_firsts (l : list BlockType) x :
  existsb (fun y => BlockType_eqb y x) (firsts BlockType_eqb l) =
  existsb (fun y => BlockType_eqb y x) l.
Proof.
  apply eq_true_iff_eq. rewrite !existsb_exists. split.
  - intros (y & Hy & E). exists y. split; [| exact E].
    apply (proj1 (in_firsts_labels _ _)), Hy.
  - intros (y & Hy & E). exists y. split; [| exact E].
    apply (proj2 (in_firsts_labels _ _)), Hy.
Qed.

Lemma counter_add_map x (c : BlockType -> nat) (ks : list BlockType) :
  NoDup ks ->
  counter_add x (map (fun k => (k, c k)) ks) =
  if existsb (fun y => BlockType_eqb y x) ks
  then map (fun k => (k, if BlockType_eqb k x then S (c k) else c k)) ks
  else map (fun k => (k, c k)) ks ++ [(x, 1)].
Proof.
  induction ks as [|k ks IH]; intros ND; simpl; [reflexivity|].
  inversion ND as [|? ? Hk ND']; subst.
  destruct (BlockType_eqb k x) eqn:E; simpl.
  - f_equal. apply map_ext_in. intros k' Hk'.
    apply BlockType_eqb_spec in E. subst x.
    assert (BlockType_eqb k' k = false) as ->; [| reflexivity].
    apply BlockType_eqb_false. intros ->. contradiction.
  - rewrite (IH ND'). destruct (existsb _ ks); reflexivity.
Qed.

Lemma Counter_snoc (l : list BlockType) x :
  Counter (l ++ [x]) = counter_add x (Counter l).
Proof. unfold Counter. now rewrite fold_left_app. Qed.

(** The counter lists the distinct labels in the order of their first
    occurrence, each with its number of occurrences. *)
Lemma Counter_firsts (l : list BlockType) :
  Counter l = map (fun k => (k, cnt l k)) (firsts BlockType_eqb l).
Proof.
  induction l as [|x l IH] using rev_ind; [reflexivity|].
  rewrite Counter_snoc, IH, (counter_add_map _ _ (NoDup_firsts l)).
  rewrite (@firsts_snoc _ _ BlockType_eqb_spec), existsb_firsts.
  destruct (existsb (fun y => BlockType_eqb y x) l) eqn:Ex.
  - apply map_ext. intros k. f_equal. rewrite count_occ_app. simpl.
    destruct (BlockType_eq_dec x k) as [->|Hne].
    + rewrite BlockType_eqb_refl. lia.
    + assert (BlockType_eqb k x = false) as ->.
      { apply BlockType_eqb_false. congruence. }
      lia.
  - rewrite map_app. simpl.
    assert (Hx : ~ In x l).
    { intros Hin. apply not_true_iff_false in Ex. apply Ex.
      apply existsb_exists. exists x. split; [exact Hin | apply BlockType_eqb_refl]. }
    f_equal.
    + apply map_ext_in. intros k Hk. f_equal. rewrite count_occ_app. simpl.
      destruct (BlockType_eq_dec x k) as [->|Hne]; [| lia].
      apply (proj1 (in_firsts_labels _ _)) in Hk. contradiction.
    + rewrite count_occ_app. simpl.
      destruct (BlockType_eq_dec x x); [| congruence].
      rewrite (proj1 (count_occ_not_In BlockType_eq_dec l x) Hx). reflexivity.
Qed.

(** [max_item] returns the first item of largest count. *)
Lemma max_item_first (rest pre mid : list (BlockType * nat)) best :
  (forall x, In x pre -> snd x < snd best) ->
  (forall x, In x mid -> snd x <= snd best) ->
  exists p1 p2,
    pre ++ best :: mid ++ rest = p1 ++ max_item best rest :: p2 /\
    (forall x, In x p1 -> snd x < snd (max_item best rest)) /\
    (forall x, In x p2 -> snd x <= snd (max_item best rest)).
Proof.
  revert pre mid best. induction rest as [|it rest IH]; intros pre mid best Hpre Hmid; simpl.
  - exists pre, mid. rewrite app_nil_r. auto.
  - destruct (snd best <? snd it) eqn:E.
    + apply Nat.ltb_lt in E.
      destruct (IH (pre ++ best :: mid) [] it) as (p1 & p2 & Heq & H1 & H2).
      * intros x Hx. apply in_app_or in Hx. destruct Hx as [Hx | [<- | Hx]].
        -- specialize (Hpre x Hx). lia.
        -- exact E.
        -- specialize (Hmid x Hx). lia.
      * intros x [].
      * exists p1, p2. split; [| auto].
        rewrite <- Heq. simpl. rewrite <- app_assoc. reflexivity.
    + apply Nat.ltb_ge in E.
      destruct (IH pre (mid ++ [it]) best) as (p1 & p2 & Heq & H1 & H2).
      * exact Hpre.
      * intros x Hx. apply in_app_or in Hx. destruct Hx as [Hx | [<- | []]]; auto.
      * exists p1, p2. split; [| auto].
        rewrite <- Heq. rewrite <- app_assoc. reflexivity.
Qed.

Lemma most_common_Some (l : list BlockType) :
  l <> [] -> exists t, most_common l = Some t.
Proof.
  intros Hl. unfold most_common. rewrite Counter_firsts.
  destruct l as [|a l]; [congruence|]. simpl. eauto.
Qed.

(** [most_common] is the majority label, the first met winning a tie. *)
Lemma most_common_spec (l : list BlockType) t :
  most_common l = Some t -> first_majority l t.
Proof.
  unfold most_common. rewrite Counter_firsts.
  destruct (map _ (firsts BlockType_eqb l)) as [|it items] eqn:EC; [discriminate|].
  intros H. injection H as <-.
  destruct (max_item_first items [] [] it) as (p1 & p2 & Heq & H1 & H2).
  { intros x []. } { intros x []. }
  simpl in Heq. rewrite <- EC in Heq.
  set (m := max_item it items) in *.
  apply map_eq_app in Heq. destruct Heq as (f1 & f2' & Hf & Hp1 & Hp2).
  apply map_eq_cons in Hp2. destruct Hp2 as (t & f2 & -> & Hm & Hp2).
  assert (Ht : fst m = t) by (rewrite <- Hm; reflexivity).
  assert (Hc : snd m = cnt l t) by (rewrite <- Hm; reflexivity).
  rewrite Ht.
  destruct (@firsts_split _ _ BlockType_eqb_spec _ _ _ _ Hf) as (l1 & l2 & Hl & Hnot & Hcov).
  exists l1, l2. repeat split; auto.
  - intros u. destruct (in_dec BlockType_eq_dec u l) as [Hin | Hout].
    + apply (proj2 (in_firsts_labels _ _)) in Hin. rewrite Hf in Hin.
      apply in_app_or in Hin. destruct Hin as [Hin | [<- | Hin]].
      * specialize (H1 (u, cnt l u)). rewrite <- Hp1 in H1.
        specialize (H1 (in_map _ _ _ Hin)). simpl in H1. lia.
      * lia.
      * specialize (H2 (u, cnt l u)). rewrite <- Hp2 in H2.
        specialize (H2 (in_map _ _ _ Hin)). simpl in H2. lia.
    + rewrite (proj1 (count_occ_not_In BlockType_eq_dec l u) Hout). lia.
  - intros u Hu. specialize (H1 (u, cnt l u)). rewrite <- Hp1 in H1.
    specialize (H1 (in_map _ _ _ (Hcov u Hu))). simpl in H1. lia.
Qed.

Lemma first_majority_unique (l : list BlockType) t t' :
  first_majority l t -> first_majority l t' -> t = t'.
Proof.
  intros (l1 & l2 & Hl & Hn & Hmax & Hlt) (l1' & l2' & Hl' & Hn' & Hmax' & Hlt').
  destruct (BlockType_eq_dec t t') as [E | NE]; [exact E | exfalso].
  rewrite Hl' in Hl at 1. apply app_eq_app in Hl.
  destruct Hl as (m & [[H1 H2] | [H1 H2]]).
  - destruct m as [|c m]; simpl in H2.
    + injection H2 as H2 _. congruence.
    + injection H2 as <- _.
      assert (In t l1') by (rewrite H1; apply in_or_app; right; left; reflexivity).
      specialize (Hlt' t H). specialize (Hmax t'). lia.
  - destruct m as [|c m]; simpl in H2.
    + injection H2 as H2 _. congruence.
    + injection H2 as <- _.
      assert (In t' l1) by (rewrite H1; apply in_or_app; right; left; reflexivity).
      specialize (Hlt t' H). specialize (Hmax' t). lia.
Qed.

(** ** Frames *)

Section Frames.

Context {T : rag_tokenizer.Tokenizer}.

Lemma iloc_row_Some (df : DataFrame) i :
  i < length df -> iloc_row df i = Some (nth i df []).
Proof. intros H. unfold iloc_row. now apply nth_error_nth'. Qed.

Lemma iloc_Some (df : DataFrame) i j :
  i < length df -> j < length (nth i df []) ->
  iloc df i j = Some (cell_at df i j).
Proof.
  intros Hi Hj. unfold iloc, cell_at.
  rewrite (nth_error_nth' df [] Hi). simpl. now apply nth_error_nth'.
Qed.

Lemma rect_nth w (df : DataFrame) i :
  rect w df -> i < length df -> length (nth i df []) = w.
Proof.
  intros R Hi. unfold rect in R. rewrite Forall_forall in R.
  apply R. now apply nth_In.
Qed.

Lemma row_types_Some (df : DataFrame) i :
  i < length df -> row_types df i = Some (types_of_row df i).
Proof.
  intros Hi. unfold row_types. rewrite (iloc_row_Some df Hi). simpl.
  unfold types_of_row. rewrite <- (map_nth_seq _ None (nth i df [])).
  rewrite <- range_0.
  apply mapM_total. intros j Hj. apply in_range_bounds in Hj.
  rewrite iloc_Some; [reflexivity | exact Hi | apply Hj].
Qed.

Lemma max_type_of_eq (df : DataFrame) :
  max_type_of df = most_common (content_types df).
Proof.
  unfold max_type_of, content_types.
  rewrite (mapM_total (row_types df) (types_of_row df)); [reflexivity|].
  intros i Hi. apply in_range_bounds in Hi. apply row_types_Some. lia.
Qed.

Lemma types_of_row_nonempty w (df : DataFrame) i :
  rect w df -> 1 <= w -> i < length df -> types_of_row df i <> [].
Proof.
  intros R Hw Hi E. apply (f_equal (@length _)) in E.
  unfold types_of_row in E. rewrite length_map, (rect_nth R Hi) in E.
  simpl in E. lia.
Qed.

Lemma content_types_nonempty w (df : DataFrame) :
  rect w df -> 1 <= w -> 2 <= length df -> content_types df <> [].
Proof.
  intros R Hw Hn E. unfold content_types in E.
  assert (H1 : 1 < length df) by lia.
  pose proof (types_of_row_nonempty R Hw H1) as Hne.
  unfold range in E.
  destruct (length df - 1) as [|k] eqn:Ek; [lia|].
  simpl in E. apply app_eq_nil in E. destruct E as [E _]. contradiction.
Qed.

Lemma hdrows_loop_eq (df : DataFrame) max_type (rs hdrows : list nat) :
  (forall r, In r rs -> r < length df /\ types_of_row df r <> []) ->
  hdrows_loop df max_type rs hdrows =
  Some (hdrows ++
        filter (fun r => negb (BlockType_eqb (row_majority df r) max_type)) rs).
Proof.
  revert hdrows. induction rs as [|r rs IH]; intros hdrows H; simpl.
  - now rewrite app_nil_r.
  - destruct (H r (or_introl eq_refl)) as [Hr Hne].
    rewrite (row_types_Some df Hr). simpl.
    unfold row_majority at 1.
    destruct (most_common_Some Hne) as [t Ht]. rewrite Ht. simpl.
    rewrite IH by (intros x Hx; apply H; right; exact Hx).
    destruct (BlockType_eqb t max_type); simpl.
    + reflexivity.
    + now rewrite <- app_assoc.
Qed.

(** The header rows found for a frame with a column: row [0], and, when the
    content is numeric, the rows whose own majority is not. *)
Lemma header_rows_eq w (df : DataFrame) max_type :
  rect w df -> 1 <= w ->
  header_rows df max_type =
  Some (0 :: filter (fun r => BlockType_eqb max_type Nu
                              && negb (BlockType_eqb (row_majority df r) Nu))
                    (range 1 (length df))).
Proof.
  intros R Hw. unfold header_rows.
  destruct (BlockType_eqb max_type Nu) eqn:E.
  - apply BlockType_eqb_spec in E. subst max_type.
    rewrite hdrows_loop_eq.
    + reflexivity.
    + intros r Hr. apply in_range_bounds in Hr. split; [lia|].
      apply (types_of_row_nonempty R Hw). lia.
  - simpl. f_equal. f_equal. symmetry.
    induction (range 1 (length df)); simpl; auto.
Qed.

Lemma header_rows_bound w (df : DataFrame) max_type hdrows :
  rect w df -> 1 <= w -> 1 <= length df ->
  header_rows df max_type = Some hdrows ->
  forall r, In r hdrows -> r < length df.
Proof.
  intros R Hw Hn H r Hr. rewrite (header_rows_eq _ R Hw) in H.
  injection H as <-. destruct Hr as [<- | Hr]; [lia|].
  apply filter_In in Hr. destruct Hr as [Hr _].
  apply in_range_bounds in Hr. lia.
Qed.

Lemma seq_sorted a n : StronglySorted lt (seq a n).
Proof.
  revert a. induction n as [|n IH]; intros a; simpl; constructor.
  - apply IH.
  - apply Forall_forall. intros x Hx. apply in_seq in Hx. lia.
Qed.

Lemma filter_sorted (p : nat -> bool) (l : list nat) :
  StronglySorted lt l -> StronglySorted lt (filter p l).
Proof.
  induction 1 as [|a l Hl IH Ha]; simpl; [constructor|].
  destruct (p a); [| exact IH]. constructor; [exact IH|].
  rewrite Forall_forall in *. intros x Hx. apply filter_In in Hx. now apply Ha.
Qed.

(** The header rows are listed from the top: the last of those above a row
    is the closest to it. *)
Lemma header_rows_sorted w (df : DataFrame) max_type hdrows :
  rect w df -> 1 <= w ->
  header_rows df max_type = Some hdrows -> StronglySorted lt hdrows.
Proof.
  intros R Hw H. rewrite (header_rows_eq _ R Hw) in H. injection H as <-.
  constructor.
  - apply filter_sorted, seq_sorted.
  - apply Forall_forall. intros x Hx. apply filter_In in Hx. destruct Hx as [Hx _].
    apply in_range_bounds in Hx. lia.
Qed.

Lemma row_majority_spec w (df : DataFrame) i :
  rect w df -> 1 <= w -> i < length df ->
  first_majority (types_of_row df i) (row_majority df i).
Proof.
  intros R Hw Hi. unfold row_majority.
  destruct (most_common_Some (types_of_row_nonempty R Hw Hi)) as [t Ht].
  rewrite Ht. now apply most_common_spec.
Qed.

End Frames.

(** C4.  Header rows of a frame with at least two rows (and a column, as
    every frame built by [__extract_table_content] has).  Row [0] is a
    header row.  A later row [i] is a header row exactly when the majority
    label of the cells of rows [1 .. len(df) - 1] is [Nu] and the majority
    label of row [i] is not [Nu]; majorities break ties for the label met
    first.  When the majority of the content is not [Nu], row [0] is the only
    header row. *)
Theorem header_rows_spec {T : rag_tokenizer.Tokenizer} (df : DataFrame) (w : nat) :
  rect w df -> 1 <= w -> 2 <= length df ->
  exists max_type hdrows,
    max_type_of df = Some max_type /\
    first_majority (content_types df) max_type /\
    header_rows df max_type = Some hdrows /\
    In 0 hdrows /\
    (forall i, 1 <= i < length df ->
       (In i hdrows <->
        max_type = Nu /\
        exists tys, first_majority (types_of_row df i) tys /\ tys <> Nu)) /\
    (max_type <> Nu -> hdrows = [0]).
Proof.
  intros R Hw Hn.
  destruct (most_common_Some (content_types_nonempty R Hw Hn)) as [mt Hmt].
  exists mt. eexists. rewrite max_type_of_eq.
  split; [exact Hmt|]. split; [now apply most_common_spec|].
  split; [apply (header_rows_eq _ R Hw)|].
  split; [left; reflexivity|]. split.
  - intros i Hi. simpl. rewrite filter_In, in_range_iff, andb_true_iff.
    rewrite BlockType_eqb_spec, negb_true_iff, BlockType_eqb_false.
    assert (Hi' : i < length df) by lia.
    pose proof (row_majority_spec R Hw Hi') as Hmaj.
    split.
    + intros [H0 | (_ & Hnu & Hrow)]; [lia|].
      split; [exact Hnu|]. exists (row_majority df i). auto.
    + intros (Hnu & tys & Htys & Hne). right. split; [lia|]. split; [exact Hnu|].
      now rewrite (first_majority_unique Hmaj Htys).
  - intros Hne. f_equal.
    apply BlockType_eqb_false in Hne. rewrite Hne. simpl.
    induction (range 1 (length df)); simpl; auto.
Qed.

(** A frame [header_rows_spec] applies to: three rows of two cells, the
    second row a label row among numbers. *)
Lemma header_rows_spec_witness :
  let df := Examples.grid [["k"; "v"]; ["1"; "2"]; ["a"; "b"]; ["3"; "4"]; ["5"; "6"]]%string in
  exists max_type hdrows,
    max_type_of (T := rag_tokenizer.plain) df = Some max_type /\
    first_majority (content_types (T := rag_tokenizer.plain) df) max_type /\
    header_rows (T := rag_tokenizer.plain) df max_type = Some hdrows /\
    In 0 hdrows /\
    (forall i, 1 <= i < length df ->
       (In i hdrows <->
        max_type = Nu /\
        exists tys, first_majority (types_of_row (T := rag_tokenizer.plain) df i) tys /\ tys <> Nu)) /\
    (max_type <> Nu -> hdrows = [0]).
Proof.
  intros df. apply (@header_rows_spec rag_tokenizer.plain df 2).
  - unfold df. vm_compute. repeat constructor.
  - lia.
  - vm_compute. lia.
Defined.

(** ** Trimmed text *)

Lemma lstrip_head (s : str) :
  lstrip s = [] \/ exists c t, lstrip s = c :: t /\ isspace c = false.
Proof.
  induction s as [|c s IH]; simpl; [now left|].
  destruct (isspace c) eqn:E; [exact IH|]. right. eauto.
Qed.

Lemma lstrip_snoc (l : str) c :
  isspace c = false -> lstrip (l ++ [c]) = lstrip l ++ [c].
Proof.
  intros Hc. induction l as [|a l IH]; simpl.
  - now rewrite Hc.
  - destruct (isspace a); [exact IH | reflexivity].
Qed.

Lemma lstrip_idem (s : str) : lstrip (lstrip s) = lstrip s.
Proof.
  destruct (lstrip_head s) as [-> | (c & t & -> & Hc)]; [reflexivity|].
  simpl. now rewrite Hc.
Qed.

Lemma rstrip_idem (s : str) : rstrip (rstrip s) = rstrip s.
Proof. unfold rstrip. now rewrite rev_involutive, lstrip_idem. Qed.

Lemma rstrip_cons c (t : str) :
  isspace c = false -> rstrip (c :: t) = c :: rstrip t.
Proof.
  intros Hc. unfold rstrip. simpl.
  rewrite lstrip_snoc by exact Hc. rewrite rev_app_distr. reflexivity.
Qed.

(** [strip] leaves a trimmed text as it is. *)
Lemma strip_idem (s : str) : strip (strip s) = strip s.
Proof.
  unfold strip.
  destruct (lstrip_head s) as [-> | (c & t & -> & Hc)]; [reflexivity|].
  rewrite rstrip_cons by exact Hc. simpl. rewrite Hc.
  rewrite <- rstrip_cons by exact Hc. apply rstrip_idem.
Qed.

Lemma table_rows_stripped (trs : list Element) : forall rows,
  Forall (Forall (fun s => strip s = s)) rows ->
  Forall (Forall (fun s => strip s = s)) (table_rows trs rows).
Proof.
  induction trs as [|row trs IH]; intros rows H; simpl; [exact H|].
  apply IH.
  destruct (map _ (findall_descendants row (qname NS_table "table-cell")))
    as [|c cs] eqn:E; [exact H|].
  apply Forall_app. split; [exact H|]. constructor; [| constructor].
  rewrite <- E. apply Forall_forall. intros s Hs.
  apply in_map_iff in Hs. destruct Hs as (cell & <- & _). apply strip_idem.
Qed.

(** In a frame built from trimmed texts, as [__extract_table_content]
    builds it, the value of a cell is its text. *)
Lemma cell_value_stripped (rows : list (list str)) i j :
  Forall (Forall (fun s => strip s = s)) rows ->
  cell_value (pd_DataFrame rows) i j = py_str (cell_at (pd_DataFrame rows) i j).
Proof.
  intros H. unfold cell_value, cell_at.
  assert (Hcell : forall row c, In row (pd_DataFrame rows) -> In c row ->
                                strip (py_str c) = py_str c).
  { intros row c Hrow Hin. unfold pd_DataFrame in Hrow. apply in_map_iff in Hrow.
    destruct Hrow as (r & <- & Hrin).
    apply in_app_or in Hin. destruct Hin as [Hin | Hin].
    - apply in_map_iff in Hin. destruct Hin as (s & <- & Hsin). simpl.
      rewrite Forall_forall in H. specialize (H r Hrin).
      rewrite Forall_forall in H. now apply H.
    - apply repeat_spec in Hin. rewrite Hin. reflexivity. }
  destruct (nth_in_or_default i (pd_DataFrame rows) []) as [Hrow | ->].
  - destruct (nth_in_or_default j (nth i (pd_DataFrame rows) []) None) as [Hin | ->];
      [| reflexivity].
    exact (Hcell _ _ Hrow Hin).
  - now destruct j.
Qed.

(** ** The header run of a data row *)

Section HeaderRun.

Variable i : nat.

Lemma offsets_filter (hdrows : list nat) :
  filter (fun z => (z <? 0)%Z) (map (offset i) hdrows) =
  map (offset i) (filter (fun r => r <? i) hdrows).
Proof.
  induction hdrows as [|r l IH]; simpl; [reflexivity|].
  assert ((offset i r <? 0)%Z = (r <? i)) as ->.
  { unfold offset. destruct (r <? i) eqn:E.
    - apply Nat.ltb_lt in E. apply Z.ltb_lt. lia.
    - apply Nat.ltb_ge in E. apply Z.ltb_ge. lia. }
  destruct (r <? i); simpl; now rewrite IH.
Qed.

Lemma nth_offsets (pre post : list nat) x :
  nth (length pre) (map (offset i) (pre ++ x :: post)) 0%Z = offset i x.
Proof.
  rewrite map_app, app_nth2; rewrite length_map; [| lia].
  now rewrite Nat.sub_diag.
Qed.

Lemma gap_offsets x y : (1 <? offset i x - offset i y)%Z = (1 <? x - y).
Proof.
  unfold offset. destruct (1 <? x - y) eqn:E.
  - apply Nat.ltb_lt in E. apply Z.ltb_lt. lia.
  - apply Nat.ltb_ge in E. apply Z.ltb_ge. lia.
Qed.

Lemma trim_loop_S (hr : list Z) t :
  trim_loop hr (S t) =
  if (1 <? nth (S t) hr 0 - nth t hr 0)%Z then skipn (S t) hr else trim_loop hr t.
Proof. reflexivity. Qed.

Lemma skipn_length_app {A : Type} (a b : list A) : skipn (length a) (a ++ b) = b.
Proof. induction a as [|x a IH]; simpl; auto. Qed.

(** The loop, started at the position of [x], keeps the run that ends at
    [x] and everything after [x]. *)
Lemma trim_loop_run (pre : list nat) : forall x post,
  trim_loop (map (offset i) (pre ++ x :: post)) (length pre) =
  map (offset i) (rev (contiguous_run x (rev pre)) ++ x :: post).
Proof.
  induction pre as [|y pre IH] using rev_ind; intros x post.
  - reflexivity.
  - assert (Hlen : length (pre ++ [y]) = S (length pre))
      by (rewrite length_app; simpl; lia).
    rewrite Hlen, trim_loop_S, <- Hlen, nth_offsets.
    rewrite <- app_assoc. cbn [app].
    rewrite nth_offsets, gap_offsets, rev_app_distr. cbn [rev app contiguous_run].
    destruct (1 <? x - y) eqn:E.
    + replace (pre ++ y :: x :: post) with ((pre ++ [y]) ++ x :: post)
        by (now rewrite <- app_assoc).
      rewrite map_app. rewrite <- (length_map (offset i) (pre ++ [y])).
      now rewrite skipn_length_app.
    + rewrite IH. cbn [rev]. now rewrite <- app_assoc.
Qed.

(** The offsets kept for row [i] are those of the nearest contiguous run of
    header rows above it. *)
Lemma header_offsets_run (hdrows : list nat) :
  header_offsets hdrows i = map (offset i) (nearest_header_run hdrows i).
Proof.
  unfold header_offsets, nearest_header_run.
  change (fun r : nat => (Z.of_nat r - Z.of_nat i)%Z) with (offset i).
  rewrite offsets_filter, length_map.
  set (above := filter (fun r => r <? i) hdrows).
  destruct above as [|x pre] using rev_ind; [reflexivity|].
  clear IHpre. rewrite length_app. simpl length.
  replace (length pre + 1 - 1) with (length pre) by lia.
  rewrite trim_loop_run, rev_app_distr. simpl. reflexivity.
Qed.

End HeaderRun.

(** ** Header labels *)

Lemma str_eqb_eq a b : str_eqb a b = true <-> a = b.
Proof.
  unfold str_eqb. destruct (list_eq_dec N.eq_dec a b); split; congruence.
Qed.

Lemma str_eqb_sym a b : str_eqb a b = str_eqb b a.
Proof.
  apply eq_true_iff_eq. rewrite !str_eqb_eq. split; congruence.
Qed.

Lemma mem_snoc x (t : list str) y :
  mem y (t ++ [x]) = mem y t || str_eqb y x.
Proof. unfold mem. rewrite existsb_app. simpl. now rewrite orb_false_r. Qed.

Lemma filter_filter {A : Type} (p q : A -> bool) (l : list A) :
  filter p (filter q l) = filter (fun y => q y && p y) l.
Proof.
  induction l as [|a l IH]; simpl; [reflexivity|].
  destruct (q a); simpl; [destruct (p a)|]; now rewrite IH.
Qed.

Lemma row_position_nat (df : DataFrame) r :
  r < length df -> row_position df (Z.of_nat r) = Some r.
Proof.
  intros H. unfold row_position.
  destruct (Z.leb_spec 0 (Z.of_nat r)); [| lia].
  destruct (Z.ltb_spec (Z.of_nat r) (Z.of_nat (length df))); [| lia].
  now rewrite Nat2Z.id.
Qed.

(** The loop over the offsets adds to [t] the values not yet in [t], each
    once, in the order they are met. *)
Lemma header_values_eq w (df : DataFrame) i j (rows : list nat) : forall t,
  rect w df -> (forall r, In r rows -> r < length df) -> j < w ->
  header_values df i j (map (fun r => (Z.of_nat r - Z.of_nat i)%Z) rows) t =
  Some (t ++ firsts str_eqb
               (filter (fun x => negb (mem x t))
                       (map (fun r => cell_value df r j) rows))).
Proof.
  induction rows as [|r rows IH]; intros t R Hrows Hj; simpl.
  - now rewrite app_nil_r.
  - assert (Hr : r < length df) by (apply Hrows; left; reflexivity).
    unfold iloc_z.
    replace (Z.of_nat i + (Z.of_nat r - Z.of_nat i))%Z with (Z.of_nat r) by lia.
    rewrite (row_position_nat df Hr). simpl.
    rewrite iloc_Some by (auto; rewrite (rect_nth R Hr); exact Hj). simpl.
    fold (cell_value df r j).
    rewrite IH by (auto; intros x Hx; apply Hrows; right; exact Hx).
    destruct (mem (cell_value df r j) t) eqn:M; simpl.
    + reflexivity.
    + rewrite <- app_assoc. simpl. do 3 f_equal.
      rewrite <- (@firsts_filter _ _ str_eqb_eq), filter_filter.
      f_equal. apply filter_ext. intros y. now rewrite mem_snoc, negb_orb.
Qed.

(** The label of a column, from the nearest run of header rows. *)
Lemma header_label_eq (df : DataFrame) (w : nat) (hdrows : list nat) (i j : nat) :
  rect w df -> (forall r, In r hdrows -> r < length df) -> j < w ->
  header_label df i (header_offsets hdrows i) j =
  Some (label_of (firsts str_eqb
                   (map (fun r => cell_value df r j) (nearest_header_run hdrows i)))).
Proof.
  intros R Hrows Hj. unfold header_label.
  rewrite header_offsets_run.
  rewrite (header_values_eq (w := w)); auto.
  - simpl. rewrite filter_all by reflexivity.
    unfold label_of. f_equal. now destruct (join _ _).
  - intros r Hr. apply Hrows. unfold nearest_header_run in Hr.
    destruct (rev (filter (fun r => r <? i) hdrows)) as [|x rest] eqn:E; [destruct Hr|].
    assert (Hsub : forall prev l y, In y (contiguous_run prev l) -> In y l).
    { intros prev l. revert prev. induction l as [|a l IH]; intros prev y Hy; simpl in *.
      - exact Hy.
      - destruct (1 <? prev - a); [destruct Hy|].
        destruct Hy as [<- | Hy]; [left; reflexivity | right; eapply IH; eauto]. }
    apply in_rev in Hr.
    assert (Hin : In r (x :: rest)).
    { destruct Hr as [<- | Hr]; [left; reflexivity | right; eapply Hsub; eauto]. }
    rewrite <- E in Hin. apply in_rev in Hin. apply filter_In in Hin. tauto.
Qed.

(** C5.  The header label of column [j] for row [i] (any row, so every data
    row): the values of the cells of column [j] in the nearest contiguous
    run of header rows strictly above [i], each value once and in the order
    first seen from the top, joined with commas and, unless that text is
    empty, followed by a colon and a space.  The value of a cell is its text,
    trimmed; in a frame built from trimmed texts, as
    [__extract_table_content] builds it, that is the text of the cell. *)
Theorem header_label_spec (df : DataFrame) (w : nat) (hdrows : list nat) (i j : nat) :
  rect w df -> (forall r, In r hdrows -> r < length df) -> j < w ->
  header_label df i (header_offsets hdrows i) j =
  Some (label_of (firsts str_eqb
                   (map (fun r => cell_value df r j) (nearest_header_run hdrows i)))) /\
  (forall rows,
      df = pd_DataFrame rows -> Forall (Forall (fun s => strip s = s)) rows ->
      header_label df i (header_offsets hdrows i) j =
      Some (label_of (firsts str_eqb
                       (map (fun r => py_str (cell_at df r j))
                            (nearest_header_run hdrows i))))).
Proof.
  intros R Hrows Hj. split; [now apply (@header_label_eq df w)|].
  intros rows -> Hs. rewrite (@header_label_eq _ w) by auto.
  do 3 f_equal. apply map_ext. intros r. now apply cell_value_stripped.
Qed.

(** A frame with header rows [0], [2] and [3]: the label of row [4] comes
    from rows [2] and [3] only. *)
Lemma header_label_spec_witness :
  let df := Examples.grid [["k"; "v"]; ["1"; "2"]; ["a"; "b"]; ["a"; "c"]; ["5"; "6"]]%string in
  nearest_header_run [0; 2; 3] 4 = [2; 3] /\
  header_label df 4 (header_offsets [0; 2; 3] 4) 0 = Some (lit "a: ") /\
  header_label df 4 (header_offsets [0; 2; 3] 4) 1 = Some (lit "b,c: ").
Proof.
  intros df. split; [reflexivity|].
  assert (R : rect 2 df) by (vm_compute; repeat constructor).
  assert (Hrows : forall r, In r [0; 2; 3] -> r < length df)
    by (intros r Hr; vm_compute; simpl in Hr; lia).
  split.
  - rewrite (proj1 (@header_label_spec df 2 [0; 2; 3] 4 0 R Hrows ltac:(lia))).
    vm_compute. reflexivity.
  - rewrite (proj1 (@header_label_spec df 2 [0; 2; 3] 4 1 R Hrows ltac:(lia))).
    vm_compute. reflexivity.
Defined.

(** ** Lines *)

Lemma mapM_length {A B : Type} (f : A -> option B) (l : list A) (l' : list B) :
  mapM f l = Some l' -> length l' = length l.
Proof.
  revert l'. induction l as [|a l IH]; intros l' H; simpl in H.
  - injection H as <-. reflexivity.
  - destruct (f a) as [b|]; [| discriminate]. simpl in H.
    destruct (mapM f l) as [bs|]; [| discriminate]. simpl in H.
    injection H as <-. simpl. f_equal. now apply IH.
Qed.

Lemma mapM_Some_all {A B : Type} (f : A -> option B) (l : list A) :
  (forall a, In a l -> exists b, f a = Some b) -> exists l', mapM f l = Some l'.
Proof.
  induction l as [|a l IH]; intros H; simpl.
  - eauto.
  - destruct (H a (or_introl eq_refl)) as [b ->]. simpl.
    destruct IH as [bs ->]; [intros x Hx; apply H; right; exact Hx|].
    simpl. eauto.
Qed.

Section Lines.

Context {T : rag_tokenizer.Tokenizer}.

Lemma cells_loop_Some w (df : DataFrame) i (headers : list str) (js : list nat) :
  forall cells,
  rect w df -> i < length df -> length headers = w ->
  (forall j, In j js -> j < w) ->
  exists cells', cells_loop df i headers js cells = Some cells'.
Proof.
  induction js as [|j js IH]; intros cells R Hi Hh Hjs; simpl.
  - eauto.
  - assert (Hj : j < w) by (apply Hjs; left; reflexivity).
    rewrite iloc_Some by (auto; rewrite (rect_nth R Hi); exact Hj). simpl.
    assert (Hrest : forall x, In x js -> x < w)
      by (intros x Hx; apply Hjs; right; exact Hx).
    destruct (py_str (cell_at df i j)); [now apply IH|].
    destruct (nth_error headers j) as [h|] eqn:E.
    + simpl. now apply IH.
    + apply nth_error_None in E. lia.
Qed.

(** Every row of a frame has a line, whatever rows are taken as headers. *)
Lemma row_line_Some w (df : DataFrame) (hdrows : list nat) i :
  rect w df -> (forall r, In r hdrows -> r < length df) -> i < length df ->
  exists line, row_line df hdrows i = Some line.
Proof.
  intros R Hh Hi. unfold row_line.
  rewrite (iloc_row_Some df Hi). simpl. rewrite (rect_nth R Hi).
  rewrite (mapM_total _
             (fun j => label_of (firsts str_eqb
                (map (fun r => cell_value df r j) (nearest_header_run hdrows i))))).
  - simpl.
    destruct (@cells_loop_Some w df i
                (map (fun j => label_of (firsts str_eqb
                   (map (fun r => cell_value df r j) (nearest_header_run hdrows i))))
                     (range 0 w))
                (range 0 w) []) as [cells ->]; auto.
    + rewrite length_map, range_0. apply length_seq.
    + intros j Hj. apply in_range_bounds in Hj. lia.
    + simpl. eauto.
  - intros j Hj. apply in_range_bounds in Hj.
    apply (@header_label_eq df w); auto. lia.
Qed.

(** The loop over the rows collects the lines of the data rows. *)
Lemma lines_loop_eq (df : DataFrame) (hdrows rows : list nat) : forall lines,
  lines_loop df hdrows rows lines =
  (ls <- mapM (row_line df hdrows)
              (filter (fun i => negb (existsb (Nat.eqb i) hdrows)) rows) ;;
   Some (lines ++ ls)).
Proof.
  induction rows as [|i rows IH]; intros lines; simpl.
  - now rewrite app_nil_r.
  - destruct (existsb (Nat.eqb i) hdrows); simpl; [apply IH|].
    destruct (row_line df hdrows i) as [line|]; simpl; [| reflexivity].
    rewrite IH. destruct (mapM _ _) as [ls|]; simpl; [| reflexivity].
    now rewrite <- app_assoc.
Qed.

Lemma compose_table_content_eq (df : DataFrame) :
  2 <= length df ->
  compose_table_content df =
  (max_type <- max_type_of df ;;
   row0 <- iloc_row df 0 ;;
   hdrows <- header_rows df max_type ;;
   lines <- mapM (row_line df hdrows) (data_rows df hdrows) ;;
   Some (if 3 <? length row0 then lines else [join newline lines])).
Proof.
  intros Hn. unfold compose_table_content.
  destruct (Nat.ltb_spec (length df) 2); [lia|].
  destruct (max_type_of df) as [mt|]; cbn [bind]; [| reflexivity].
  destruct (iloc_row df 0) as [row0|]; cbn [bind]; [| reflexivity].
  destruct (header_rows df mt) as [hd|]; cbn [bind]; [| reflexivity].
  rewrite lines_loop_eq. unfold data_rows.
  destruct (mapM _ _) as [ls|]; cbn [bind app]; [| reflexivity].
  destruct (3 <? length row0); reflexivity.
Qed.

Lemma compose_table_content_short (df : DataFrame) :
  length df < 2 -> compose_table_content df = Some [].
Proof.
  intros H. unfold compose_table_content.
  destruct (Nat.ltb_spec (length df) 2); [reflexivity | lia].
Qed.

End Lines.

(** The result for a frame with two rows or more: the lines of the data
    rows, separate or joined. *)
Lemma compose_table_content_lines {T : rag_tokenizer.Tokenizer}
      (df : DataFrame) (w : nat) :
  rect w df -> 1 <= w -> 2 <= length df ->
  exists max_type hdrows lines,
    max_type_of df = Some max_type /\
    header_rows df max_type = Some hdrows /\
    mapM (row_line df hdrows) (data_rows df hdrows) = Some lines /\
    compose_table_content df =
    Some (if 3 <? w then lines else [join newline lines]).
Proof.
  intros R Hw Hn.
  destruct (most_common_Some (content_types_nonempty R Hw Hn)) as [mt Hmt].
  rewrite <- max_type_of_eq in Hmt.
  pose proof (header_rows_eq mt R Hw) as Hhd.
  set (hd := 0 :: filter _ _) in Hhd.
  assert (Hbound : forall r, In r hd -> r < length df).
  { intros r Hr. eapply header_rows_bound; eauto. lia. }
  destruct (@mapM_Some_all _ _ (row_line df hd) (data_rows df hd)) as [lines Hl].
  { intros i Hi. apply filter_In in Hi. destruct Hi as [Hi _].
    apply in_range_bounds in Hi. eapply row_line_Some; eauto. lia. }
  exists mt, hd, lines. repeat split; auto.
  rewrite (compose_table_content_eq df Hn), Hmt. cbn [bind].
  rewrite iloc_row_Some by lia. cbn [bind]. rewrite Hhd. cbn [bind].
  rewrite Hl. cbn [bind]. now rewrite (rect_nth R) by lia.
Qed.

(** A frame of more than three columns without a data row gives nothing. *)
Lemma compose_table_content_wide_no_data {T : rag_tokenizer.Tokenizer}
      (df : DataFrame) (w : nat) :
  rect w df -> 3 < w -> 2 <= length df ->
  (forall max_type hdrows,
      max_type_of df = Some max_type -> header_rows df max_type = Some hdrows ->
      data_rows df hdrows = []) ->
  compose_table_content df = Some [].
Proof.
  intros R Hw Hn Hno.
  destruct (@compose_table_content_lines T df w) as (mt & hd & lines & Hmt & Hhd & Hl & ->);
    auto; [lia|].
  rewrite (Hno mt hd Hmt Hhd) in Hl. simpl in Hl. injection Hl as <-.
  destruct (Nat.ltb_spec 3 w); [reflexivity | lia].
Qed.

(** C6, as amended.  For a frame with at least two rows (and a column),
    the lines of the data rows exist, one for each data row.  When there is a
    data row, a frame of more than three columns gives these lines as
    separate entries, and a frame of at most three columns gives one entry,
    the lines joined by a line feed. *)
Theorem compose_table_content_shape {T : rag_tokenizer.Tokenizer}
        (df : DataFrame) (w : nat) :
  rect w df -> 1 <= w -> 2 <= length df ->
  exists max_type hdrows lines,
    max_type_of df = Some max_type /\
    header_rows df max_type = Some hdrows /\
    mapM (row_line df hdrows) (data_rows df hdrows) = Some lines /\
    length lines = length (data_rows df hdrows) /\
    (data_rows df hdrows <> [] ->
     (3 < w -> compose_table_content df = Some lines) /\
     (w <= 3 -> compose_table_content df = Some [join newline lines])).
Proof.
  intros R Hw Hn.
  destruct (@compose_table_content_lines T df w R Hw Hn)
    as (mt & hd & lines & Hmt & Hhd & Hl & Hc).
  exists mt, hd, lines. repeat split; auto.
  - now apply mapM_length in Hl.
  - intros Hwide. rewrite Hc. destruct (Nat.ltb_spec 3 w); [reflexivity | lia].
  - intros Hnarrow. rewrite Hc. destruct (Nat.ltb_spec 3 w); [lia | reflexivity].
Qed.

(** A frame of four columns and two data rows. *)
Lemma compose_table_content_shape_witness :
  let df := Examples.grid [["a"; "b"; "c"; "d"]; ["1"; "2"; "3"; "4"];
                           ["5"; "6"; "7"; "8"]]%string in
  exists max_type hdrows lines,
    max_type_of (T := rag_tokenizer.plain) df = Some max_type /\
    header_rows (T := rag_tokenizer.plain) df max_type = Some hdrows /\
    mapM (row_line df hdrows) (data_rows df hdrows) = Some lines /\
    length lines = length (data_rows df hdrows) /\
    (data_rows df hdrows <> [] ->
     (3 < 4 -> compose_table_content (T := rag_tokenizer.plain) df = Some lines) /\
     (4 <= 3 -> compose_table_content (T := rag_tokenizer.plain) df
                = Some [join newline lines])).
Proof.
  intros df. apply (@compose_table_content_shape rag_tokenizer.plain df 4).
  - unfold df. vm_compute. repeat constructor.
  - lia.
  - vm_compute. lia.
Defined.

(** C6, as stated, fails on a frame of one row: no entry is returned. *)
Lemma compose_table_content_one_row :
  compose_table_content (T := rag_tokenizer.plain) (Examples.grid [["a"; "b"]]%string)
  = Some [].
Proof. reflexivity. Qed.

(** ** Missing cells *)

Section Rendered.

Context {T : rag_tokenizer.Tokenizer}.

Variable df : DataFrame.

Lemma rendered_length : length (rendered df) = length df.
Proof. apply length_map. Qed.

Lemma rendered_iloc_row i :
  iloc_row (rendered df) i =
  option_map (map (fun c => Some (py_str c))) (iloc_row df i).
Proof. unfold iloc_row, rendered. apply nth_error_map. Qed.

Lemma rendered_iloc i j :
  iloc (rendered df) i j = option_map (fun c => Some (py_str c)) (iloc df i j).
Proof.
  unfold iloc, rendered. rewrite nth_error_map.
  destruct (nth_error df i) as [r|]; simpl; [| reflexivity].
  apply nth_error_map.
Qed.

Lemma rendered_row_types r : row_types (rendered df) r = row_types df r.
Proof.
  unfold row_types. rewrite rendered_iloc_row.
  destruct (iloc_row df r) as [row|]; simpl; [| reflexivity].
  rewrite length_map. apply mapM_ext_in. intros j _.
  rewrite rendered_iloc. now destruct (iloc df r j).
Qed.

Lemma rendered_max_type_of : max_type_of (rendered df) = max_type_of df.
Proof.
  unfold max_type_of. rewrite rendered_length.
  rewrite (mapM_ext_in (row_types (rendered df)) (row_types df)); [reflexivity|].
  intros r _. apply rendered_row_types.
Qed.

Lemma rendered_hdrows_loop max_type rs : forall hdrows,
  hdrows_loop (rendered df) max_type rs hdrows = hdrows_loop df max_type rs hdrows.
Proof.
  induction rs as [|r rs IH]; intros hdrows; simpl; [reflexivity|].
  rewrite rendered_row_types.
  destruct (row_types df r) as [row|]; simpl; [| reflexivity].
  destruct (most_common row); simpl; [apply IH | reflexivity].
Qed.

Lemma rendered_header_rows max_type :
  header_rows (rendered df) max_type = header_rows df max_type.
Proof.
  unfold header_rows. rewrite rendered_length, rendered_hdrows_loop. reflexivity.
Qed.

Lemma rendered_iloc_z z j :
  iloc_z (rendered df) z j = option_map (fun c => Some (py_str c)) (iloc_z df z j).
Proof.
  unfold iloc_z, row_position. rewrite rendered_length.
  destruct (0 <=? z)%Z.
  - destruct (z <? Z.of_nat (length df))%Z; simpl; [apply rendered_iloc | reflexivity].
  - destruct (- z <=? Z.of_nat (length df))%Z; simpl; [apply rendered_iloc | reflexivity].
Qed.

Lemma rendered_header_values i j hr : forall t,
  header_values (rendered df) i j hr t = header_values df i j hr t.
Proof.
  induction hr as [|h hr IH]; intros t; simpl; [reflexivity|].
  rewrite rendered_iloc_z.
  destruct (iloc_z df (Z.of_nat i + h) j) as [c|]; simpl; [apply IH | reflexivity].
Qed.

Lemma rendered_header_label i hr j :
  header_label (rendered df) i hr j = header_label df i hr j.
Proof. unfold header_label. now rewrite rendered_header_values. Qed.

Lemma rendered_cells_loop i headers js : forall cells,
  cells_loop (rendered df) i headers js cells = cells_loop df i headers js cells.
Proof.
  induction js as [|j js IH]; intros cells; simpl; [reflexivity|].
  rewrite rendered_iloc.
  destruct (iloc df i j) as [c|]; simpl; [| reflexivity].
  destruct (py_str c); [apply IH|].
  destruct (nth_error headers j); simpl; [apply IH | reflexivity].
Qed.

Lemma rendered_row_line hdrows i :
  row_line (rendered df) hdrows i = row_line df hdrows i.
Proof.
  unfold row_line. rewrite rendered_iloc_row.
  destruct (iloc_row df i) as [row|]; simpl; [| reflexivity].
  rewrite length_map.
  rewrite (mapM_ext_in (header_label (rendered df) i (header_offsets hdrows i))
                       (header_label df i (header_offsets hdrows i)))
    by (intros j _; apply rendered_header_label).
  destruct (mapM _ _) as [headers|]; simpl; [| reflexivity].
  now rewrite rendered_cells_loop.
Qed.

Lemma rendered_lines_loop hdrows rows : forall lines,
  lines_loop (rendered df) hdrows rows lines = lines_loop df hdrows rows lines.
Proof.
  induction rows as [|i rows IH]; intros lines; simpl; [reflexivity|].
  destruct (existsb (Nat.eqb i) hdrows); [apply IH|].
  rewrite rendered_row_line.
  destruct (row_line df hdrows i); simpl; [apply IH | reflexivity].
Qed.

(** [__compose_table_content] reads a cell through [str] only. *)
Lemma rendered_compose_table_content :
  compose_table_content (rendered df) = compose_table_content df.
Proof.
  unfold compose_table_content.
  rewrite rendered_length, rendered_max_type_of.
  destruct (length df <? 2); [reflexivity|].
  destruct (max_type_of df) as [mt|]; cbn [bind]; [| reflexivity].
  rewrite rendered_iloc_row.
  destruct (iloc_row df 0) as [row0|]; cbn [bind option_map]; [| reflexivity].
  rewrite rendered_header_rows, length_map.
  destruct (header_rows df mt) as [hd|]; cbn [bind]; [| reflexivity].
  now rewrite rendered_lines_loop.
Qed.

End Rendered.

Lemma width_bound (rows : list (list str)) r :
  In r rows -> length r <= fold_right Nat.max 0 (map (@length str) rows).
Proof.
  induction rows as [|a rows IH]; intros H; simpl in *; [destruct H|].
  destruct H as [<- | H]; [lia|]. specialize (IH H). lia.
Qed.

Lemma width_constant (w : nat) (rows : list (list str)) :
  rows <> [] -> (forall r, In r rows -> length r = w) ->
  fold_right Nat.max 0 (map (@length str) rows) = w.
Proof.
  induction rows as [|a rows IH]; intros Hne H; [congruence|]. simpl.
  rewrite (H a (or_introl eq_refl)).
  destruct rows as [|b rows]; [simpl; lia|].
  rewrite IH; [lia | discriminate |].
  intros r Hr. apply H. right. exact Hr.
Qed.

Lemma fill_missing_width s (rows : list (list str)) :
  fold_right Nat.max 0 (map (@length str) (fill_missing s rows)) =
  fold_right Nat.max 0 (map (@length str) rows).
Proof.
  destruct rows as [|a rows]; [reflexivity|].
  apply width_constant.
  - discriminate.
  - intros r Hr. unfold fill_missing in Hr. apply in_map_iff in Hr.
    destruct Hr as (r0 & <- & Hr0).
    rewrite length_app, repeat_length.
    pose proof (width_bound _ _ Hr0). lia.
Qed.

Lemma rendered_fill_missing (rows : list (list str)) :
  rendered (pd_DataFrame (fill_missing (lit "None") rows)) =
  rendered (pd_DataFrame rows).
Proof.
  unfold pd_DataFrame. rewrite fill_missing_width.
  set (w := fold_right Nat.max 0 (map (@length str) rows)).
  assert (Hb : forall r, In r rows -> length r <= w)
    by (intros r Hr; apply width_bound; exact Hr).
  unfold rendered, fill_missing. fold w. rewrite !map_map.
  apply map_ext_in. intros r Hr. specialize (Hb r Hr).
  rewrite length_app, repeat_length.
  replace (w - (length r + (w - length r))) with 0 by lia.
  simpl. rewrite app_nil_r, !map_app, !map_map. f_equal.
  induction (w - length r); simpl; [reflexivity | now f_equal].
Qed.

(** C8, as amended.  A cell missing from a short row is read as the text
    [None]: the frame of a ragged grid gives the same result as the frame of
    the grid with every short row filled up with the string "None". *)
Theorem missing_cells_read_None {T : rag_tokenizer.Tokenizer} (rows : list (list str)) :
  compose_table_content (pd_DataFrame rows) =
  compose_table_content (pd_DataFrame (fill_missing (lit "None") rows)).
Proof.
  rewrite <- (rendered_compose_table_content (pd_DataFrame rows)).
  rewrite <- (rendered_compose_table_content (pd_DataFrame (fill_missing _ rows))).
  now rewrite rendered_fill_missing.
Qed.

(** C8, as stated, fails: the missing cell of the second row is emitted as
    [Qty: None], where an empty cell is skipped. *)
Lemma missing_cell_not_empty :
  compose_table_content (T := rag_tokenizer.plain)
    (Examples.grid [["Item"; "Qty"]; ["apple"]]%string)
  = Some [lit "Item: apple;Qty: None"] /\
  compose_table_content (T := rag_tokenizer.plain)
    (Examples.grid [["Item"; "Qty"]; ["apple"; EmptyString]]%string)
  = Some [lit "Item: apple"].
Proof. split; reflexivity. Qed.

(** ** The example grid *)

(** C3.  The grid of the years and revenues: the content is numeric, row [0]
    is the only header row, rows [1] and [2] are the data rows, and the result
    is one block of two lines, also when the grid is read from a table
    element. *)
Theorem compose_table_content_example {T : rag_tokenizer.Tokenizer} :
  let rows := [["Year"; "Revenue"]; ["2023"; "100"]; ["2024"; "120"]]%string in
  let block := join newline [lit "Year: 2023;Revenue: 100";
                             lit "Year: 2024;Revenue: 120"] in
  max_type_of (Examples.grid rows) = Some Nu /\
  header_rows (Examples.grid rows) Nu = Some [0] /\
  data_rows (Examples.grid rows) [0] = [1; 2] /\
  compose_table_content (Examples.grid rows) = Some [block] /\
  extract_table_content (Examples.table rows) = Some [block].
Proof. repeat split; vm_compute; reflexivity. Qed.

(** ** The matcher *)

Lemma matches_void_inv s : ~ matches Void s.
Proof. intros H. inversion H. Qed.

Lemma matches_eps_inv s : matches Eps s -> s = [].
Proof. intros H. now inversion H. Qed.

Lemma matches_cls_inv p s : matches (Cls p) s -> exists c, s = [c] /\ p c = true.
Proof. intros H. inversion H; subst. eauto. Qed.

Lemma matches_cat_inv r1 r2 s :
  matches (Cat r1 r2) s ->
  exists s1 s2, s = s1 ++ s2 /\ matches r1 s1 /\ matches r2 s2.
Proof. intros H. inversion H; subst. eauto. Qed.

Lemma matches_alt_inv r1 r2 s :
  matches (Alt r1 r2) s -> matches r1 s \/ matches r2 s.
Proof. intros H. inversion H; subst; auto. Qed.

Lemma nullable_matches r : nullable r = true <-> matches r [].
Proof.
  induction r as [| |p|r1 IH1 r2 IH2|r1 IH1 r2 IH2|r IH]; simpl.
  - split; [discriminate | intros H; now apply matches_void_inv in H].
  - split; [constructor | reflexivity].
  - split; [discriminate|].
    intros H. apply matches_cls_inv in H. destruct H as (c & E & _). discriminate.
  - rewrite andb_true_iff, IH1, IH2. split.
    + intros [H1 H2]. apply (m_cat H1 H2).
    + intros H. apply matches_cat_inv in H. destruct H as (s1 & s2 & E & H1 & H2).
      symmetry in E. apply app_eq_nil in E. destruct E as [-> ->]. auto.
  - rewrite orb_true_iff, IH1, IH2. split.
    + intros [H | H]; [now apply m_alt_l | now apply m_alt_r].
    + apply matches_alt_inv.
  - split; [constructor | reflexivity].
Qed.

(** A non-empty match of [r*] starts with a non-empty match of [r]. *)
Lemma matches_star_cons r c s :
  matches (Star r) (c :: s) ->
  exists s1 s2, s = s1 ++ s2 /\ matches r (c :: s1) /\ matches (Star r) s2.
Proof.
  intros H. remember (Star r) as r' eqn:Er. remember (c :: s) as cs eqn:Es.
  revert s Es.
  induction H as [| | | | | |r0 s1 s2 H1 _ H2 IH2]; intros s0 Es; try discriminate.
  injection Er as ->.
  destruct s1 as [|c1 s1]; simpl in Es.
  - now apply IH2.
  - injection Es as -> <-. eauto.
Qed.

Lemma deriv_matches c r : forall s, matches (deriv c r) s <-> matches r (c :: s).
Proof.
  induction r as [| |p|r1 IH1 r2 IH2|r1 IH1 r2 IH2|r IH]; intros s; simpl.
  - split; intros H; now apply matches_void_inv in H.
  - split; intros H; [now apply matches_void_inv in H|].
    apply matches_eps_inv in H. discriminate.
  - split.
    + destruct (p c) eqn:P; intros H.
      * apply matches_eps_inv in H. subst s. now constructor.
      * now apply matches_void_inv in H.
    + intros H. apply matches_cls_inv in H. destruct H as (c' & E & P).
      injection E as <- ->. rewrite P. constructor.
  - assert (Hcat : matches (Cat (deriv c r1) r2) s ->
                   matches (Cat r1 r2) (c :: s)).
    { intros H. apply matches_cat_inv in H. destruct H as (s1 & s2 & -> & H1 & H2).
      apply IH1 in H1. apply (m_cat H1 H2). }
    assert (Hback : matches (Cat r1 r2) (c :: s) ->
                    matches (Cat (deriv c r1) r2) s \/
                    (matches r1 [] /\ matches (deriv c r2) s)).
    { intros H. apply matches_cat_inv in H. destruct H as (s1 & s2 & E & H1 & H2).
      destruct s1 as [|c1 s1]; simpl in E.
      - subst s2. right. split; [exact H1 | now apply IH2].
      - injection E as <- ->. left. apply m_cat; [now apply IH1 | exact H2]. }
    destruct (nullable r1) eqn:N; split.
    + intros H. apply matches_alt_inv in H. destruct H as [H | H]; [now apply Hcat|].
      apply nullable_matches in N.
      apply (@m_cat r1 r2 [] (c :: s)); [exact N | now apply IH2].
    + intros H. destruct (Hback H) as [H' | [_ H']];
        [now apply m_alt_l | now apply m_alt_r].
    + exact Hcat.
    + intros H. destruct (Hback H) as [H' | [H' _]]; [exact H'|].
      apply nullable_matches in H'. congruence.
  - split; intros H; apply matches_alt_inv in H; destruct H as [H | H].
    + apply m_alt_l. now apply IH1.
    + apply m_alt_r. now apply IH2.
    + apply m_alt_l. now apply IH1.
    + apply m_alt_r. now apply IH2.
  - split.
    + intros H. apply matches_cat_inv in H. destruct H as (s1 & s2 & -> & H1 & H2).
      apply IH in H1. apply (@m_star_app r (c :: s1) s2 H1 H2).
    + intros H. apply matches_star_cons in H.
      destruct H as (s1 & s2 & -> & H1 & H2).
      apply m_cat; [now apply IH | exact H2].
Qed.

(** The matcher decides the language of the pattern. *)
Lemma fullmatch_matches r s : fullmatch r s = true <-> matches r s.
Proof.
  revert r. induction s as [|c s IH]; intros r; simpl.
  - apply nullable_matches.
  - rewrite IH. apply deriv_matches.
Qed.

(** ** The classifier *)

Lemma first_match_nth (ps : list (regex * BlockType)) b : forall k p n,
  nth_error ps k = Some (p, n) ->
  search_anchored p b = true ->
  (forall k' p' n', k' < k -> nth_error ps k' = Some (p', n') ->
                    search_anchored p' b = false) ->
  first_match ps b = Some n.
Proof.
  induction ps as [|[p0 n0] ps IH]; intros k p n Hk Hm Hbefore.
  - destruct k; discriminate.
  - destruct k as [|k]; simpl in *.
    + injection Hk as -> ->. now rewrite Hm.
    + rewrite (Hbefore 0 p0 n0) by (auto; lia).
      apply (IH k p n); auto.
      intros k' p' n' Hlt Hk'. apply (Hbefore (S k') p' n'); [lia | exact Hk'].
Qed.

Lemma first_match_In (ps : list (regex * BlockType)) b n :
  first_match ps b = Some n -> In n (map snd ps).
Proof.
  induction ps as [|[p0 n0] ps IH]; simpl; [discriminate|].
  destruct (search_anchored p0 b).
  - intros H. injection H as ->. now left.
  - intros H. right. now apply IH.
Qed.

Lemma pattern_labels : map snd pattern = [Dt; Dt; Dt; Dt; Dt; Dt; DT; Nu; Ca; En; NE; Sg].
Proof. reflexivity. Qed.

(** Labels of some cell texts. *)
Lemma blockType_examples {T : rag_tokenizer.Tokenizer} :
  map (fun s => blockType (lit s))
      ["2023-01-02"; "2023年1月"; "2024年"; "1月2日"; "第1季度"; "2023年三季度";
       "2023A"; "2024"; "1,000.5%"; "AB-12"; "Revenue"; "None"; "12kg"; "年"]%string
  = [Dt; Dt; Dt; Dt; Dt; Dt; DT; Nu; Nu; Ca; En; En; NE; Sg].
Proof. vm_compute. reflexivity. Qed.

(** C2, as amended.  The patterns are tried in the order of the source and
    the first that matches gives the label: a string matched by the pattern
    at position [k] and by none before it gets the label of that pattern.
    So ["2024年"] is [Dt] by the year-only pattern (position [1]), while the
    bare ["2024"] is matched by none of the date patterns (positions [0] to
    [6]) and is [Nu]. *)
Theorem blockType_first_match {T : rag_tokenizer.Tokenizer} :
  (forall b k p n,
      nth_error pattern k = Some (p, n) ->
      search_anchored p b = true ->
      (forall k' p' n', k' < k -> nth_error pattern k' = Some (p', n') ->
                        search_anchored p' b = false) ->
      blockType b = n) /\
  (exists p, nth_error pattern 1 = Some (p, Dt) /\
             search_anchored p (lit "2024年") = true /\
             blockType (lit "2024年") = Dt) /\
  (forall k p n, k < 7 -> nth_error pattern k = Some (p, n) ->
                 search_anchored p (lit "2024") = false) /\
  blockType (lit "2024") = Nu.
Proof.
  split; [| split; [| split]].
  - intros b k p n Hk Hm Hbefore. unfold blockType.
    now rewrite (@first_match_nth pattern b k p n Hk Hm Hbefore).
  - eexists. split; [reflexivity|]. split; vm_compute; reflexivity.
  - intros k p n Hk Hnth.
    do 7 (destruct k as [|k]; [injection Hnth as <- _; vm_compute; reflexivity|]).
    lia.
  - vm_compute. reflexivity.
Qed.

(** ["2023A"] is matched by the pattern at position [6] and also by the later
    code pattern; those before position [6] do not match, and the label is
    [DT]. *)
Lemma blockType_first_match_witness :
  blockType (T := rag_tokenizer.plain) (lit "2023A") = DT.
Proof.
  eapply (proj1 (@blockType_first_match rag_tokenizer.plain) (lit "2023A") 6).
  - reflexivity.
  - vm_compute. reflexivity.
  - intros k p n Hk Hnth.
    do 6 (destruct k as [|k]; [injection Hnth as <- _; vm_compute; reflexivity|]).
    lia.
Defined.

(** C2, as stated, fails: the bare year is labelled [Nu]. *)
Lemma blockType_2024 :
  blockType (T := rag_tokenizer.plain) (lit "2024") = Nu.
Proof. vm_compute. reflexivity. Qed.

(** C9.  [blockType] returns one of its eleven labels for every string.
    [Ot] is the fallback: it is returned exactly when no pattern matches,
    there are at most three long tokens, and there is not a single long token
    tagged ["nr"].  The empty string matches no pattern.  The label depends
    on the tokenizer only through the tokens of the string and their tags. *)
Theorem blockType_total_pure (T : rag_tokenizer.Tokenizer) (b : str) :
  In (blockType b) all_block_types /\
  (blockType b = Ot <->
   first_match pattern b = None /\
   ~ 3 < length (long_tokens b) /\
   ~ (length (long_tokens b) = 1 /\
      rag_tokenizer.tag (nth 0 (long_tokens b) []) = lit "nr")) /\
  first_match pattern [] = None /\
  (forall T' : rag_tokenizer.Tokenizer,
      @rag_tokenizer.tokenize T' b = @rag_tokenizer.tokenize T b ->
      (forall t, @rag_tokenizer.tag T' t = @rag_tokenizer.tag T t) ->
      @blockType T' b = @blockType T b).
Proof.
  split; [| split; [| split]].
  - unfold all_block_types. destruct (blockType b); simpl; tauto.
  - unfold blockType.
    destruct (first_match pattern b) as [n|] eqn:F.
    + split.
      * intros ->. apply first_match_In in F. rewrite pattern_labels in F.
        simpl in F. repeat (destruct F as [F | F]; [discriminate|]). destruct F.
      * intros [H _]. discriminate.
    + cbv zeta.
      destruct (Nat.ltb_spec 3 (length (long_tokens b))) as [Hlt | Hge].
      * split; [destruct (length (long_tokens b) <? 12); discriminate|].
        intros (_ & H3 & _). contradiction.
      * destruct (Nat.eqb_spec (length (long_tokens b)) 1) as [E1 | E1]; simpl.
        -- destruct (str_eqb _ _) eqn:E.
           ++ apply str_eqb_eq in E. split; [discriminate|].
              intros (_ & _ & H). exfalso. apply H. auto.
           ++ split; [| reflexivity]. intros _. split; [reflexivity|].
              split; [lia|]. intros [_ H]. apply str_eqb_eq in H. congruence.
        -- split; [| reflexivity]. intros _. split; [reflexivity|].
           split; [lia|]. intros [H _]. contradiction.
  - vm_compute. reflexivity.
  - intros T' Htok Htag. unfold blockType, long_tokens.
    rewrite Htok, Htag. reflexivity.
Qed.

(** ** Lists *)

Lemma size_child (cs : list Element) c :
  In c cs -> size c <= list_sum (map size cs).
Proof.
  induction cs as [|a cs IH]; intros H; simpl in *; [destruct H|].
  destruct H as [<- | H]; [lia|]. specialize (IH H). lia.
Qed.

Lemma size_children e c : In c (children e) -> size c < size e.
Proof.
  destruct e as [t a x cs tl]. simpl. intros H.
  apply size_child in H. lia.
Qed.

Lemma size_iter n : forall e d, size e <= n -> In d (iter e) -> size d <= size e.
Proof.
  induction n as [|n IH]; intros e d Hn Hd.
  - destruct e. simpl in Hn. lia.
  - destruct e as [t a x cs tl]. simpl in Hd. destruct Hd as [<- | Hd]; [lia|].
    apply in_concat in Hd. destruct Hd as (l & Hl & Hd).
    apply in_map_iff in Hl. destruct Hl as (c & <- & Hc).
    pose proof (size_child _ _ Hc) as Hsz. simpl in Hn |- *.
    assert (size d <= size c) by (apply IH; [lia | exact Hd]).
    lia.
Qed.

Lemma size_descendants e d : In d (descendants e) -> size d < size e.
Proof.
  unfold descendants. intros Hd.
  apply in_concat in Hd. destruct Hd as (l & Hl & Hd).
  apply in_map_iff in Hl. destruct Hl as (c & <- & Hc).
  apply size_children in Hc.
  pose proof (@size_iter (size c) c d (le_n _) Hd). lia.
Qed.

Section ListLoops.

Variable rec : Element -> nat -> bool -> option (list str).

Lemma item_children_Some level (cs : list Element) : forall item_texts,
  (forall c, In c cs -> forall l o, exists ts, rec c l o = Some ts) ->
  exists ts, item_children rec level cs item_texts = Some ts.
Proof.
  induction cs as [|c cs IH]; intros item_texts H; simpl.
  - eauto.
  - assert (Hrest : forall c', In c' cs -> forall l o, exists ts, rec c' l o = Some ts)
      by (intros c' Hc'; apply H; right; exact Hc').
    destruct (str_eqb (tag c) (qname NS_text "p")); [now apply IH|].
    destruct (str_eqb (tag c) (qname NS_text "list")); [| now apply IH].
    destruct (H c (or_introl eq_refl) (level + 1)
                (0 <=? find (lower (get c (qname NS_text "style-name") [])) (lit "num"))%Z)
      as [ts ->].
    simpl. now apply IH.
Qed.

Lemma items_loop_Some level is_ordered (items : list Element) :
  forall texts item_num,
  (forall item c, In item items -> In c (children item) ->
                  forall l o, exists ts, rec c l o = Some ts) ->
  exists ts, items_loop rec level is_ordered items texts item_num = Some ts.
Proof.
  induction items as [|item items IH]; intros texts item_num H; simpl.
  - eauto.
  - destruct (@item_children_Some level (children item) []) as [its ->].
    { intros c Hc. apply (H item c); [left; reflexivity | exact Hc]. }
    simpl.
    assert (Hrest : forall item' c, In item' items -> In c (children item') ->
                                    forall l o, exists ts, rec c l o = Some ts)
      by (intros item' c Hi Hc; apply (H item' c); [right; exact Hi | exact Hc]).
    destruct its; now apply IH.
Qed.

End ListLoops.

Lemma extract_list_text_fuel_Some fuel : forall e level is_ordered,
  size e <= fuel ->
  exists ts, extract_list_text_fuel fuel e level is_ordered = Some ts.
Proof.
  induction fuel as [|fuel IH]; intros e level is_ordered Hsz.
  - destruct e. simpl in Hsz. lia.
  - simpl. apply items_loop_Some.
    intros item c Hitem Hc l o. apply IH.
    unfold findall_descendants in Hitem. apply filter_In in Hitem.
    destruct Hitem as [Hitem _].
    apply size_descendants in Hitem. apply size_children in Hc. lia.
Qed.

(** [__extract_list_text] returns for every list. *)
Lemma extract_list_text_total e level is_ordered :
  exists ts, extract_list_text e level is_ordered = Some ts.
Proof. apply extract_list_text_fuel_Some. apply le_n. Qed.

(** ** Frames built by [__extract_table_content] *)

Lemma pd_DataFrame_rect (rows : list (list str)) :
  rect (fold_right Nat.max 0 (map (@length str) rows)) (pd_DataFrame rows).
Proof.
  unfold rect, pd_DataFrame. apply Forall_forall. intros r Hr.
  apply in_map_iff in Hr. destruct Hr as (r0 & <- & Hr0).
  rewrite length_app, length_map, repeat_length.
  pose proof (width_bound _ _ Hr0) as Hb.
  set (w := fold_right Nat.max 0 _) in *. clearbody w. lia.
Qed.

Lemma table_rows_nonempty (trs : list Element) : forall rows,
  Forall (fun r => r <> []) rows -> Forall (fun r => r <> []) (table_rows trs rows).
Proof.
  induction trs as [|row trs IH]; intros rows H; simpl; [exact H|].
  apply IH.
  destruct (map _ (findall_descendants row (qname NS_table "table-cell")));
    [exact H|].
  apply Forall_app. split; [exact H|]. constructor; [discriminate | constructor].
Qed.

(** The rows read from a table are not empty, so their frame has a column. *)
Lemma extracted_width (table_element : Element) :
  let rows := table_rows (findall_descendants table_element
                                              (qname NS_table "table-row")) [] in
  rows <> [] -> 1 <= fold_right Nat.max 0 (map (@length str) rows).
Proof.
  intros rows Hne.
  assert (H : Forall (fun r => r <> []) rows)
    by (apply table_rows_nonempty; constructor).
  destruct rows as [|r rows']; [congruence|].
  inversion H as [|? ? Hr _]; subst. simpl.
  destruct r as [|c r]; [congruence|]. simpl length.
  apply Nat.le_trans with (S (length r)); [lia | apply Nat.le_max_l].
Qed.

(** [__extract_table_content] returns for every table: the [max] of
    [__compose_table_content] is never taken over an empty counter. *)
Lemma extract_table_content_total {T : rag_tokenizer.Tokenizer} (table_element : Element) :
  exists r, extract_table_content table_element = Some r.
Proof.
  unfold extract_table_content.
  pose proof (extracted_width table_element) as Hw. cbv zeta in Hw.
  destruct (table_rows _ []) as [|r0 rows'] eqn:E; [eauto|].
  specialize (Hw ltac:(discriminate)).
  set (rows := r0 :: rows') in *.
  destruct (Nat.ltb_spec (length (pd_DataFrame rows)) 2) as [Hshort | Hlong].
  - rewrite compose_table_content_short by exact Hshort. eauto.
  - destruct (@compose_table_content_lines T (pd_DataFrame rows) _
                (pd_DataFrame_rect rows) Hw Hlong)
      as (mt & hd & lines & _ & _ & _ & ->).
    eauto.
Qed.

Lemma body_loop_total {T : rag_tokenizer.Tokenizer} (elements : list Element) :
  forall secs tbls, exists r, body_loop elements secs tbls = Some r.
Proof.
  induction elements as [|element elements IH]; intros secs tbls; simpl; [eauto|].
  destruct (_ || _); [apply IH|].
  destruct (str_eqb _ (lit "text:list")).
  - destruct (extract_list_text_total element 0
                (contains (lower (get element (qname NS_text "style-name") [])) (lit "num")
                 || contains (lower (get element (qname NS_text "style-name") []))
                             (lit "number")))
      as [ts ->].
    cbn [bind]. apply IH.
  - destruct (str_eqb _ (lit "table:table")); [| apply IH].
    destruct (extract_table_content_total element) as [r ->].
    cbn [bind]. apply IH.
Qed.

(** [__call__] returns for every parsed content. *)
Lemma call_parsed_total {T : rag_tokenizer.Tokenizer} (root : Element) :
  exists r, call_parsed root = Some r.
Proof.
  unfold call_parsed.
  destruct (find_descendant_child _ _ _); [apply body_loop_total | eauto].
Qed.

(** C1.  The list with the item [A] and the nested item [B], at level [0]
    and unordered: the line of the nested item comes twice, once under [A]
    with four spaces before its bullet and once more as an item of the outer
    list, because [findall('.//text:list-item')] also yields the items of
    nested lists. *)
Theorem extract_list_text_nested :
  extract_list_text Examples.nested_list 0 false =
  Some [lit "• A"; lit "    • B"; lit "• B"].
Proof. vm_compute. reflexivity. Qed.

(** ** Tables without data rows *)

(** C7.  A frame of two columns in which every row after the first is a
    header row: the content is numeric by majority, but each of the rows [1]
    and [2] has a tie that its first, non-numeric cell wins.  There is no data
    row, and the result is one entry, the empty string, which [__call__] keeps
    as a table. *)
Theorem compose_table_content_no_data_rows {T : rag_tokenizer.Tokenizer} :
  let rows := [["H1"; "H2"]; ["a"; "1"]; ["B"; "2"]]%string in
  max_type_of (Examples.grid rows) = Some Nu /\
  header_rows (Examples.grid rows) Nu = Some [0; 1; 2] /\
  data_rows (Examples.grid rows) [0; 1; 2] = [] /\
  compose_table_content (Examples.grid rows) = Some [lit EmptyString] /\
  call_parsed (Examples.document [Examples.table rows]) = Some ([], [[lit EmptyString]]).
Proof. repeat split; vm_compute; reflexivity. Qed.

(** ** Documents without a body text *)

Lemma concat_nil {A : Type} (ls : list (list A)) :
  (forall l, In l ls -> l = []) -> concat ls = [].
Proof.
  induction ls as [|l ls IH]; intros H; simpl; [reflexivity|].
  rewrite (H l (or_introl eq_refl)). simpl. apply IH.
  intros l' Hl'. apply H. right. exact Hl'.
Qed.

Lemma find_body_None root :
  no_body_text root ->
  find_descendant_child root (qname NS_office "body") (qname NS_office "text") = None.
Proof.
  intros H. unfold find_descendant_child.
  rewrite concat_nil; [reflexivity|].
  intros l Hl. apply in_map_iff in Hl. destruct Hl as (b & <- & Hb).
  unfold findall_descendants in Hb. apply filter_In in Hb.
  destruct Hb as [Hb Htag]. apply str_eqb_eq in Htag.
  destruct (filter _ (children b)) as [|t ts] eqn:E; [reflexivity | exfalso].
  assert (Ht : In t (filter (fun c => str_eqb (tag c) (qname NS_office "text"))
                            (children b))) by (rewrite E; left; reflexivity).
  apply filter_In in Ht. destruct Ht as [Ht Htt]. apply str_eqb_eq in Htt.
  exact (H b t Hb Htag Ht Htt).
Qed.

(** C10.  When the parsed content has no [office:text] under an
    [office:body], [__call__] returns two empty lists and does not raise. *)
Theorem call_parsed_no_body {T : rag_tokenizer.Tokenizer} (root : Element) :
  no_body_text root -> call_parsed root = Some ([], []).
Proof.
  intros H. unfold call_parsed. now rewrite find_body_None.
Qed.

(** A content with an [office:body] that holds a paragraph directly. *)
Lemma call_parsed_no_body_witness :
  call_parsed (T := rag_tokenizer.plain) Examples.document_without_text
  = Some ([], []).
Proof.
  apply (@call_parsed_no_body rag_tokenizer.plain).
  intros b t Hb Htag Ht.
  vm_compute in Hb. destruct Hb as [<- | [<- | []]].
  - vm_compute in Ht. destruct Ht as [<- | []]. vm_compute. discriminate.
  - vm_compute in Htag. discriminate.
Defined.

(** The empty string, with the plain tokenizer: it matches no pattern and
    still gets a label. *)
Lemma blockType_total_pure_witness :
  In (blockType (T := rag_tokenizer.plain) (lit EmptyString)) all_block_types /\
  first_match pattern [] = None.
Proof.
  destruct (blockType_total_pure rag_tokenizer.plain (lit EmptyString)) as (H1 & _ & H3 & _).
  split; [exact H1 | exact H3].
Defined.

(** * Further properties *)

Import Reading.

(** ** The line of a row *)

Lemma cells_loop_eq w (df : DataFrame) i (headers : list str) (js : list nat) :
  forall cells,
  rect w df -> i < length df -> length headers = w ->
  (forall j, In j js -> j < w) ->
  cells_loop df i headers js cells =
  Some (cells ++
        map (fun j => nth j headers [] ++ py_str (cell_at df i j))
            (filter (fun j => nonempty (py_str (cell_at df i j))) js)).
Proof.
  induction js as [|j js IH]; intros cells R Hi Hh Hjs; simpl.
  - now rewrite app_nil_r.
  - assert (Hj : j < w) by (apply Hjs; left; reflexivity).
    rewrite iloc_Some by (auto; rewrite (rect_nth R Hi); exact Hj). cbn [bind].
    assert (Hrest : forall x, In x js -> x < w)
      by (intros x Hx; apply Hjs; right; exact Hx).
    destruct (py_str (cell_at df i j)) as [|c s] eqn:E; cbn [nonempty].
    + now apply IH.
    + rewrite (nth_error_nth' headers [])  by lia. cbn [bind].
      rewrite IH by auto. cbn [map]. rewrite E, <- app_assoc. reflexivity.
Qed.

Lemma nth_map_range {A : Type} (g : nat -> A) (d : A) w j :
  j < w -> nth j (map g (range 0 w)) d = g j.
Proof.
  intros H. rewrite range_0.
  rewrite (nth_indep _ d (g 0)) by (rewrite length_map, length_seq; exact H).
  rewrite (map_nth g (seq 0 w) 0 j), seq_nth by exact H. reflexivity.
Qed.

Lemma row_line_eq w (df : DataFrame) (hdrows : list nat) i :
  rect w df -> (forall r, In r hdrows -> r < length df) -> i < length df ->
  row_line df hdrows i = Some (line_of df hdrows w i).
Proof.
  intros R Hh Hi. unfold row_line.
  rewrite (iloc_row_Some df Hi). cbn [bind]. rewrite (rect_nth R Hi).
  rewrite (mapM_total _ (column_label df hdrows i)).
  - cbn [bind].
    rewrite (@cells_loop_eq w);
      [ | exact R | exact Hi
        | rewrite length_map, range_0; apply length_seq
        | intros j Hj; apply in_range_bounds in Hj; lia ].
    cbn [bind app]. unfold line_of. do 2 f_equal.
    apply map_ext_in. intros j Hj. apply filter_In in Hj. destruct Hj as [Hj _].
    apply in_range_bounds in Hj. rewrite nth_map_range by lia. reflexivity.
  - intros j Hj. apply in_range_bounds in Hj.
    apply (@header_label_eq df w); auto. lia.
Qed.

Lemma filter_none {A : Type} (p : A -> bool) (l : list A) :
  (forall x, In x l -> p x = false) -> filter p l = [].
Proof.
  induction l as [|a l IH]; intros H; simpl; [reflexivity|].
  rewrite (H a (or_introl eq_refl)). apply IH.
  intros x Hx. apply H. right. exact Hx.
Qed.

(** X1.  The line of a row: the cells whose text is not empty, each written
    as the label of its column followed by the text, joined with
    semicolons; a cell with an empty text is left out together with its
    label. *)
Theorem row_line_spec (df : DataFrame) (w : nat) (hdrows : list nat) (i : nat) :
  rect w df -> (forall r, In r hdrows -> r < length df) -> i < length df ->
  row_line df hdrows i =
  Some (join (lit ";")
          (map (fun j => column_label df hdrows i j ++ py_str (cell_at df i j))
               (filter (fun j => nonempty (py_str (cell_at df i j))) (range 0 w)))).
Proof. apply row_line_eq. Qed.

Lemma row_line_spec_witness :
  row_line (Examples.grid [["k"; "v"; "u"]; ["1"; EmptyString; "3"]]%string) [0] 1
  = Some (lit "k: 1;u: 3").
Proof.
  rewrite (@row_line_spec _ 3).
  - vm_compute. reflexivity.
  - vm_compute. repeat constructor.
  - intros r [<- | []]. vm_compute. lia.
  - vm_compute. lia.
Defined.

(** X2.  A row whose cells all have an empty text still has a line, the
    empty string: the row is not dropped. *)
Theorem row_line_empty_row (df : DataFrame) (w : nat) (hdrows : list nat) (i : nat) :
  rect w df -> (forall r, In r hdrows -> r < length df) -> i < length df ->
  (forall j, j < w -> py_str (cell_at df i j) = []) ->
  row_line df hdrows i = Some [].
Proof.
  intros R Hh Hi Hempty. rewrite (@row_line_eq w df hdrows i R Hh Hi). unfold line_of.
  rewrite filter_none; [reflexivity|].
  intros j Hj. apply in_range_bounds in Hj. rewrite Hempty by lia. reflexivity.
Qed.

Lemma row_line_empty_row_witness :
  row_line (Examples.grid [["k"; "v"]; [EmptyString; EmptyString]]%string) [0] 1
  = Some [].
Proof.
  apply (@row_line_empty_row _ 2).
  - vm_compute. repeat constructor.
  - intros r [<- | []]. vm_compute. lia.
  - vm_compute. lia.
  - intros j Hj. destruct j as [|[|j]]; [reflexivity | reflexivity | lia].
Defined.

(** ** Whole frames *)

Section WholeFrames.

Context {T : rag_tokenizer.Tokenizer}.

(** The result for a frame with two rows or more and a column, in terms of
    the lines of its data rows. *)
Lemma compose_table_content_line_of (df : DataFrame) (w : nat) :
  rect w df -> 1 <= w -> 2 <= length df ->
  exists max_type,
    max_type_of df = Some max_type /\
    let hdrows :=
      0 :: filter (fun r => BlockType_eqb max_type Nu
                            && negb (BlockType_eqb (row_majority df r) Nu))
                  (range 1 (length df)) in
    header_rows df max_type = Some hdrows /\
    compose_table_content df =
    Some (blocks w (map (line_of df hdrows w) (data_rows df hdrows))).
Proof.
  intros R Hw Hn.
  destruct (most_common_Some (content_types_nonempty R Hw Hn)) as [mt Hmt].
  rewrite <- max_type_of_eq in Hmt. exists mt. split; [exact Hmt|].
  intros hdrows. pose proof (header_rows_eq mt R Hw) as Hhd. fold hdrows in Hhd.
  split; [exact Hhd|].
  assert (Hbound : forall r, In r hdrows -> r < length df).
  { intros r Hr. eapply header_rows_bound; eauto. lia. }
  rewrite (compose_table_content_eq df Hn), Hmt. cbn [bind].
  rewrite iloc_row_Some by lia. cbn [bind]. rewrite Hhd. cbn [bind].
  rewrite (mapM_total _ (line_of df hdrows w)).
  - cbn [bind]. rewrite (rect_nth R) by lia. reflexivity.
  - intros i Hi. apply filter_In in Hi. destruct Hi as [Hi _].
    apply in_range_bounds in Hi. apply row_line_eq; auto. lia.
Qed.

Lemma data_rows_top (df : DataFrame) :
  data_rows df [0] = range 1 (length df).
Proof.
  unfold data_rows. apply filter_all. intros i Hi.
  apply in_range_bounds in Hi. simpl.
  destruct i; [lia | reflexivity].
Qed.

Lemma nearest_header_run_top i : 1 <= i -> nearest_header_run [0] i = [0].
Proof. intros H. unfold nearest_header_run. destruct i; [lia | reflexivity]. Qed.

End WholeFrames.

(** The result when row [0] is the only header row. *)
Lemma compose_table_content_top_header {T : rag_tokenizer.Tokenizer}
      (df : DataFrame) (w : nat) :
  rect w df -> 1 <= w -> 2 <= length df ->
  (max_type_of df = Some Nu ->
   forall i, 1 <= i < length df -> most_common (types_of_row df i) = Some Nu) ->
  compose_table_content df =
  Some (blocks w
          (map (fun i =>
                  join (lit ";")
                    (map (fun j => top_label df j ++ py_str (cell_at df i j))
                         (filter (fun j => nonempty (py_str (cell_at df i j)))
                                 (range 0 w))))
               (range 1 (length df)))).
Proof.
  intros R Hw Hn Hnum.
  destruct (@compose_table_content_line_of T df w R Hw Hn) as (mt & Hmt & Hhd & ->).
  assert (Htop : filter (fun r => BlockType_eqb mt Nu
                                  && negb (BlockType_eqb (row_majority df r) Nu))
                        (range 1 (length df)) = []).
  { apply filter_none. intros r Hr. apply in_range_bounds in Hr.
    destruct (BlockType_eqb mt Nu) eqn:E; [| reflexivity].
    apply BlockType_eqb_spec in E. subst mt.
    unfold row_majority. rewrite (Hnum Hmt r) by lia. reflexivity. }
  rewrite Htop, data_rows_top. do 2 f_equal.
  apply map_ext_in. intros i Hi. apply in_range_bounds in Hi.
  unfold line_of. f_equal. apply map_ext. intros j.
  unfold column_label, top_label. rewrite nearest_header_run_top by lia. reflexivity.
Qed.

(** X3.  A frame in which row [0] is the only header row, because the
    content is not numeric by majority or because every later row is: each
    row after the first gives a line, its non-empty cells each after the
    header of its column in row [0] (with a colon, unless that header is
    empty); a frame of more than three columns gives these lines as they are,
    a narrower one joins them with line feeds. *)
Theorem compose_table_content_single_header {T : rag_tokenizer.Tokenizer}
        (df : DataFrame) (w : nat) :
  rect w df -> 1 <= w -> 2 <= length df ->
  (max_type_of df = Some Nu ->
   forall i, 1 <= i < length df -> most_common (types_of_row df i) = Some Nu) ->
  compose_table_content df =
  Some (blocks w
          (map (fun i =>
                  join (lit ";")
                    (map (fun j => top_label df j ++ py_str (cell_at df i j))
                         (filter (fun j => nonempty (py_str (cell_at df i j)))
                                 (range 0 w))))
               (range 1 (length df)))).
Proof. apply compose_table_content_top_header. Qed.

Lemma compose_table_content_single_header_witness :
  compose_table_content (T := rag_tokenizer.plain)
    (Examples.grid [["Name"; "City"]; ["Ann"; "Oslo"]; ["Bob"; EmptyString]]%string)
  = Some [join newline [lit "Name: Ann;City: Oslo"; lit "Name: Bob"]].
Proof.
  rewrite (@compose_table_content_single_header rag_tokenizer.plain _ 2).
  - vm_compute. reflexivity.
  - vm_compute. repeat constructor.
  - lia.
  - vm_compute. lia.
  - vm_compute. discriminate.
Defined.

(** X4.  A frame in which every row after the first is a header row (the
    content is numeric by majority and no row is): there is no data row, and
    the result is the empty list when the frame has more than three columns,
    and one empty string otherwise. *)
Theorem compose_table_content_all_headers {T : rag_tokenizer.Tokenizer}
        (df : DataFrame) (w : nat) :
  rect w df -> 1 <= w -> 2 <= length df ->
  max_type_of df = Some Nu ->
  (forall i, 1 <= i < length df -> most_common (types_of_row df i) <> Some Nu) ->
  compose_table_content df = Some (if 3 <? w then [] else [[]]).
Proof.
  intros R Hw Hn Hnu Hrows.
  destruct (@compose_table_content_line_of T df w R Hw Hn) as (mt & Hmt & Hhd & ->).
  assert (mt = Nu) by congruence. subst mt.
  assert (Hall : filter (fun r => BlockType_eqb Nu Nu
                                  && negb (BlockType_eqb (row_majority df r) Nu))
                        (range 1 (length df)) = range 1 (length df)).
  { apply filter_all. intros r Hr. apply in_range_bounds in Hr.
    rewrite BlockType_eqb_refl. simpl. apply negb_true_iff, BlockType_eqb_false.
    intros E. apply (Hrows r); [lia|].
    assert (Hr' : r < length df) by lia.
    destruct (most_common_Some (types_of_row_nonempty R Hw Hr')) as [t Ht].
    unfold row_majority in E. rewrite Ht in E |- *. now subst. }
  rewrite Hall.
  assert (Hno : data_rows df (0 :: range 1 (length df)) = []).
  { unfold data_rows. apply filter_none. intros i Hi.
    apply negb_false_iff, existsb_exists. exists i.
    split; [right; exact Hi | apply Nat.eqb_refl]. }
  rewrite Hno. unfold blocks. simpl. destruct (3 <? w); reflexivity.
Qed.

Lemma compose_table_content_all_headers_witness :
  compose_table_content (T := rag_tokenizer.plain)
    (Examples.grid [["a"; "b"; "c"; "d"]; ["x"; "y"; "1"; "2"];
                    ["A1"; "B2"; "3"; "4"]]%string)
  = Some [].
Proof.
  apply (@compose_table_content_all_headers rag_tokenizer.plain _ 4).
  - vm_compute. repeat constructor.
  - lia.
  - vm_compute. lia.
  - vm_compute. reflexivity.
  - intros i Hi. vm_compute in Hi.
    destruct i as [|[|[|i]]]; [lia | vm_compute; discriminate
                               | vm_compute; discriminate | lia].
Defined.

(** X5.  The header rows found for a frame are listed in increasing order,
    start with row [0] and are rows of the frame. *)
Theorem header_rows_ascending {T : rag_tokenizer.Tokenizer}
        (df : DataFrame) (w : nat) (max_type : BlockType) (hdrows : list nat) :
  rect w df -> 1 <= w -> 1 <= length df ->
  header_rows df max_type = Some hdrows ->
  StronglySorted lt hdrows /\
  (exists rest, hdrows = 0 :: rest) /\
  (forall r, In r hdrows -> r < length df).
Proof.
  intros R Hw Hn H. split; [| split].
  - eapply header_rows_sorted; eauto.
  - rewrite (header_rows_eq _ R Hw) in H. injection H as <-. eauto.
  - intros r Hr. eapply header_rows_bound; eauto.
Qed.

Lemma header_rows_ascending_witness :
  let df := Examples.grid [["k"; "v"]; ["1"; "2"]; ["a"; "b"]; ["3"; "4"]; ["5"; "6"]]%string in
  header_rows (T := rag_tokenizer.plain) df Nu = Some [0; 2] /\
  StronglySorted lt [0; 2].
Proof.
  intros df.
  assert (H : header_rows (T := rag_tokenizer.plain) df Nu = Some [0; 2])
    by (vm_compute; reflexivity).
  split; [exact H|].
  apply (@header_rows_ascending rag_tokenizer.plain df 2 Nu [0; 2]).
  - vm_compute. repeat constructor.
  - lia.
  - vm_compute. lia.
  - exact H.
Defined.

(** ** The header run, declaratively *)

Lemma contiguous_run_members (l : list nat) : forall prev,
  StronglySorted gt (prev :: l) ->
  forall r, In r (prev :: contiguous_run prev l) <->
            r <= prev /\ forall x, r <= x <= prev -> In x (prev :: l).
Proof.
  induction l as [|a l IH]; intros prev S r.
  - simpl. split.
    + intros [<- | []]. split; [lia|]. intros x Hx. left. lia.
    + intros [Hr Hall]. destruct (Hall r ltac:(lia)) as [E | []]. now left.
  - inversion S as [|? ? S' Hgt]; subst.
    assert (Ha : a < prev).
    { rewrite Forall_forall in Hgt. specialize (Hgt a (or_introl eq_refl)).
      unfold gt in Hgt. lia. }
    assert (Hbelow : forall x, In x (a :: l) -> x <= a).
    { intros x [<- | Hx]; [lia|].
      inversion S' as [|? ? _ Hgt']; subst. rewrite Forall_forall in Hgt'.
      specialize (Hgt' x Hx). unfold gt in Hgt'. lia. }
    cbn [contiguous_run].
    destruct (Nat.ltb_spec 1 (prev - a)) as [Hgap | Hnext].
    + split.
      * intros [<- | []]. split; [lia|]. intros x Hx. left. lia.
      * intros [Hr Hall]. left.
        destruct (Nat.eq_dec r prev) as [E | NE]; [now symmetry|].
        destruct (Hall (prev - 1) ltac:(lia)) as [E | Hin]; [lia|].
        specialize (Hbelow _ Hin). lia.
    + assert (E : a = prev - 1) by lia.
      specialize (IH a S' r). split.
      * intros [<- | Hin].
        -- split; [lia|]. intros x Hx. left. lia.
        -- apply IH in Hin. destruct Hin as [Hr Hall]. split; [lia|].
           intros x Hx. destruct (Nat.eq_dec x prev) as [-> | NE]; [now left|].
           right. apply Hall. lia.
      * intros [Hr Hall].
        destruct (Nat.eq_dec r prev) as [E' | NE]; [left; now symmetry|].
        right. apply IH. split; [lia|].
        intros x Hx. destruct (Hall x ltac:(lia)) as [E' | Hin]; [lia | exact Hin].
Qed.

Lemma sorted_rev (l : list nat) :
  StronglySorted lt l -> StronglySorted gt (rev l).
Proof.
  induction 1 as [|a l S IH Ha]; simpl; [constructor|].
  rewrite Forall_forall in Ha.
  revert IH. generalize (rev l) (fun x (H : In x (rev l)) => Ha x (proj2 (in_rev l x) H)).
  intros m Hm IH. induction IH as [|b m S' IH' Hb]; simpl.
  - constructor; constructor.
  - constructor.
    + apply IH'. intros x Hx. apply Hm. right. exact Hx.
    + apply Forall_app. split; [exact Hb|].
      constructor; [| constructor]. unfold gt. apply Hm. left. reflexivity.
Qed.

(** X6.  The offsets kept for row [i], when the header rows are listed in
    increasing order and [m] is the closest header row above [i]: they are
    the offsets of the rows [r <= m] such that every row from [r] to [m] is
    a header row, that is, of the block of adjacent header rows that ends at
    [m]. *)
Theorem header_offsets_block (hdrows : list nat) (i m : nat) :
  StronglySorted lt hdrows ->
  In m hdrows -> m < i -> (forall x, In x hdrows -> x < i -> x <= m) ->
  forall z, In z (header_offsets hdrows i) <->
            exists r, z = offset i r /\ r <= m /\
                      forall x, r <= x <= m -> In x hdrows.
Proof.
  intros S Hm Hmi Hmax z.
  rewrite header_offsets_run, in_map_iff.
  set (above := filter (fun r => r <? i) hdrows).
  assert (Habove : forall x, In x above <-> In x hdrows /\ x < i).
  { intros x. unfold above. rewrite filter_In, Nat.ltb_lt. tauto. }
  assert (Sd : StronglySorted gt (rev above))
    by (apply sorted_rev, filter_sorted, S).
  unfold nearest_header_run. fold above.
  destruct (rev above) as [|m' rest] eqn:E.
  { exfalso. assert (In m (rev above)) by (apply in_rev; rewrite rev_involutive;
                                            apply Habove; auto).
    rewrite E in H. destruct H. }
  assert (Hin' : forall x, In x (m' :: rest) <-> In x hdrows /\ x < i).
  { intros x. rewrite <- E, <- in_rev. apply Habove. }
  assert (m' = m).
  { assert (H1 : m' <= m).
    { destruct (proj1 (Hin' m') (or_introl eq_refl)). auto. }
    assert (H2 : In m (m' :: rest)) by (apply Hin'; auto).
    destruct H2 as [-> | H2]; [reflexivity|].
    inversion Sd as [|? ? _ Hgt]; subst. rewrite Forall_forall in Hgt.
    specialize (Hgt m H2). unfold gt in Hgt. lia. }
  subst m'.
  split.
  - intros (r & <- & Hr). exists r. split; [reflexivity|].
    apply in_rev in Hr. apply (contiguous_run_members Sd) in Hr.
    destruct Hr as [Hle Hall]. split; [exact Hle|].
    intros x Hx. apply (Hin' x). now apply Hall.
  - intros (r & -> & Hle & Hall). exists r. split; [reflexivity|].
    apply in_rev. rewrite rev_involutive.
    apply (contiguous_run_members Sd). split; [exact Hle|].
    intros x Hx. apply Hin'. split; [now apply Hall | lia].
Qed.

(** Header rows [0], [2] and [3] for row [5]: the block is rows [2] and [3],
    row [0] is left out. *)
Lemma header_offsets_block_witness :
  header_offsets [0; 2; 3] 5 = [-3; -2]%Z /\
  (In (-3)%Z (header_offsets [0; 2; 3] 5) <->
   exists r, (-3)%Z = offset 5 r /\ r <= 3 /\
             forall x, r <= x <= 3 -> In x [0; 2; 3]).
Proof.
  split; [reflexivity|].
  apply (@header_offsets_block [0; 2; 3] 5 3).
  - repeat constructor.
  - simpl. tauto.
  - lia.
  - intros x Hx _. simpl in Hx. lia.
Defined.

(** ** Labels of plain numbers and of single characters *)

Lemma never_cls (q p : char -> bool) :
  (forall c, p c = true -> q c = false) -> never q (Cls p).
Proof.
  intros H s Hs. apply matches_cls_inv in Hs. destruct Hs as (c & -> & Hc).
  simpl. now rewrite (H c Hc).
Qed.

Lemma never_cat_l (q : char -> bool) r1 r2 : never q r1 -> never q (Cat r1 r2).
Proof.
  intros H s Hs. apply matches_cat_inv in Hs. destruct Hs as (s1 & s2 & -> & H1 & _).
  rewrite forallb_app, (H s1 H1). reflexivity.
Qed.

Lemma never_cat_r (q : char -> bool) r1 r2 : never q r2 -> never q (Cat r1 r2).
Proof.
  intros H s Hs. apply matches_cat_inv in Hs. destruct Hs as (s1 & s2 & -> & _ & H2).
  rewrite forallb_app, (H s2 H2). apply andb_false_r.
Qed.

Lemma one_of_In (l : str) c : one_of l c = true -> In c l.
Proof.
  unfold one_of. intros H. apply existsb_exists in H. destruct H as (x & Hx & E).
  apply N.eqb_eq in E. now subst.
Qed.

Lemma never_search (q : char -> bool) r s :
  never q r -> (forall c, q c = true -> c <> 10%N) ->
  forallb q s = true -> search_anchored r s = false.
Proof.
  intros Hr Hq Hs. unfold search_anchored.
  assert (Hf : fullmatch r s = false).
  { destruct (fullmatch r s) eqn:E; [| reflexivity].
    apply fullmatch_matches in E. apply Hr in E. congruence. }
  rewrite Hf. simpl.
  assert (Hn : ends_with_newline s = false); [| now rewrite Hn].
  unfold ends_with_newline. destruct (rev s) as [|c t] eqn:E; [reflexivity|].
  apply N.eqb_neq. apply Hq.
  rewrite forallb_forall in Hs. apply Hs, in_rev. rewrite E. now left.
Qed.

Lemma matches_star_cls (p : char -> bool) (s : str) :
  forallb p s = true -> matches (Star (Cls p)) s.
Proof.
  induction s as [|c s IH]; simpl; intros H; [constructor|].
  apply andb_true_iff in H. destruct H as [Hc Hs].
  apply (@m_star_app (Cls p) [c] s); [now constructor | now apply IH].
Qed.

Lemma fullmatch_plus_cls (p : char -> bool) (s : str) :
  s <> [] -> forallb p s = true -> fullmatch (Plus (Cls p)) s = true.
Proof.
  intros Hne H. apply fullmatch_matches. destruct s as [|c s]; [congruence|].
  simpl in H. apply andb_true_iff in H. destruct H as [Hc Hs].
  apply (@m_cat (Cls p) (Star (Cls p)) [c] s);
    [now constructor | now apply matches_star_cls].
Qed.

Lemma plain_number_char_not (l : str) c :
  forallb (fun x => negb (plain_number_char x)) l = true ->
  one_of l c = true -> plain_number_char c = false.
Proof.
  intros Hl Hc. apply one_of_In in Hc. rewrite forallb_forall in Hl.
  apply negb_true_iff. now apply Hl.
Qed.

Lemma never_lit_plain_number (c : char) r :
  plain_number_char c = false -> never plain_number_char (Cat (Cls (N.eqb c)) r).
Proof.
  intros H. apply never_cat_l, never_cls. intros x Hx.
  apply N.eqb_eq in Hx. now subst.
Qed.

(** None of the date patterns matches a plain number: each needs a
    separator, a date word or a letter. *)
Lemma date_patterns_never k p n :
  k < 7 -> nth_error pattern k = Some (p, n) -> never plain_number_char p.
Proof.
  intros Hk Hnth.
  assert (Hsep : forall l r, forallb (fun x => negb (plain_number_char x)) l = true ->
                             never plain_number_char (Cat (Cls (one_of l)) r)).
  { intros l r Hl. apply never_cat_l, never_cls. intros c. now apply plain_number_char_not. }
  destruct k as [|[|[|[|[|[|[|k]]]]]]]; try lia;
    injection Hnth as <- _; cbv [Seq fold_right].
  - apply never_cat_r, Hsep. reflexivity.
  - apply never_cat_r. cbv [Lit Seq fold_right map lit bytes_of utf8_decode].
    apply never_cat_l. vm_compute (map _ _). apply never_lit_plain_number. reflexivity.
  - apply never_cat_r, Hsep. reflexivity.
  - apply never_cat_r, Hsep. reflexivity.
  - do 2 apply never_cat_r. apply never_cat_l.
    unfold Lit, Seq. vm_compute (lit _). simpl. apply never_lit_plain_number. reflexivity.
  - do 3 apply never_cat_r. apply never_cat_l.
    unfold Lit, Seq. vm_compute (lit _). simpl. apply never_lit_plain_number. reflexivity.
  - apply never_cat_r, Hsep. reflexivity.
Qed.

Lemma plain_number_char_nu c : plain_number_char c = true -> nu_char c = true.
Proof.
  unfold plain_number_char, nu_char. intros H.
  apply orb_true_iff in H. destruct H as [H | H]; [now rewrite H|].
  apply one_of_In in H. vm_compute in H.
  repeat (destruct H as [<- | H]; [now rewrite orb_true_r|]). destruct H.
Qed.

Lemma plain_number_char_not_newline c : plain_number_char c = true -> c <> 10%N.
Proof. intros H ->. vm_compute in H. discriminate. Qed.

(** X7.  A plain number, that is a non-empty string of digits, [.], [,],
    [+], [%] and spaces, is labelled [Nu]: it is matched by none of the date
    patterns and by the numeric one, whatever the tokenizer. *)
Theorem blockType_plain_number {T : rag_tokenizer.Tokenizer} (s : str) :
  s <> [] -> forallb plain_number_char s = true -> blockType s = Nu.
Proof.
  intros Hne Hs. unfold blockType.
  rewrite (@first_match_nth pattern s 7 _ Nu eq_refl); [reflexivity | |].
  - unfold search_anchored. rewrite fullmatch_plus_cls; [reflexivity | exact Hne |].
    apply forallb_forall. intros c Hc. rewrite forallb_forall in Hs.
    apply plain_number_char_nu, Hs, Hc.
  - intros k p n Hk Hnth. apply (@never_search plain_number_char); auto.
    + eapply date_patterns_never; eauto.
    + apply plain_number_char_not_newline.
Qed.

Lemma blockType_plain_number_witness :
  blockType (T := rag_tokenizer.plain) (lit "1,234.5 %") = Nu.
Proof.
  apply (@blockType_plain_number rag_tokenizer.plain).
  - vm_compute. discriminate.
  - vm_compute. reflexivity.
Defined.

Lemma min_length_matches r s : matches r s -> min_length r <= length s.
Proof.
  induction 1; simpl; try lia.
  - rewrite length_app. lia.
Qed.

Lemma search_single r c :
  c <> 10%N -> search_anchored r [c] = nullable (deriv c r).
Proof.
  intros H. unfold search_anchored, ends_with_newline.
  cbn [rev app removelast fullmatch].
  apply N.eqb_neq in H. rewrite H. cbn [andb]. apply orb_false_r.
Qed.

Lemma single_too_short r c : 2 <= min_length r -> nullable (deriv c r) = false.
Proof.
  intros H. destruct (nullable (deriv c r)) eqn:E; [| reflexivity].
  assert (Hm : matches r [c]) by (apply fullmatch_matches; exact E).
  apply min_length_matches in Hm. simpl in Hm. lia.
Qed.

Lemma single_plus (p : char -> bool) c : nullable (deriv c (Plus (Cls p))) = p c.
Proof. simpl. destruct (p c); reflexivity. Qed.

Lemma single_star_plus (u p : char -> bool) c :
  nullable (deriv c (Seq [Star (Cls u); Plus (Cls p)])) = p c.
Proof. simpl. destruct (u c), (p c); reflexivity. Qed.

Lemma single_dot c : c <> 10%N -> nullable (deriv c (Rep 1 Dot)) = true.
Proof.
  intros H. cbn [Rep Dot deriv nullable]. apply N.eqb_neq in H. now rewrite H.
Qed.

(** X8.  A text of one character other than a line feed is labelled by a
    pattern, so the tokenizer is not consulted: [Nu] for a character of the
    numeric class, else [Ca] for one of the code class, else [En] for one of
    the word class, and [Sg] for any other character. *)
Theorem blockType_single_char {T : rag_tokenizer.Tokenizer} (c : char) :
  c <> 10%N ->
  blockType [c] =
  if nu_char c then Nu else if ca_char c then Ca else if en_char c then En else Sg.
Proof.
  intros Hc. unfold blockType. cbv [first_match pattern].
  rewrite !(search_single _ Hc).
  do 7 (rewrite single_too_short by (vm_compute; lia)).
  rewrite !single_plus, single_star_plus. cbv beta.
  change (is_digit c || one_of (lit ".,+%/ -") c) with (nu_char c).
  change (is_digit c || upper c || one_of (lit "/._~-") c) with (ca_char c).
  change (lower_case c || one_of (lit "' -") c) with (en_char c).
  destruct (nu_char c); [reflexivity|].
  destruct (ca_char c); [reflexivity|].
  destruct (en_char c); [reflexivity|].
  rewrite single_too_short by (vm_compute; lia).
  now rewrite (single_dot Hc).
Qed.

Lemma blockType_single_char_witness :
  blockType (T := rag_tokenizer.plain) (lit "年") = Sg.
Proof.
  exact (@blockType_single_char rag_tokenizer.plain 24180%N ltac:(discriminate)).
Defined.

(** ** Tables read from the document *)

Lemma table_rows_eq (trs : list Element) : forall rows,
  table_rows trs rows = rows ++ filter has_items (map row_cells trs).
Proof.
  induction trs as [|row trs IH]; intros rows; simpl.
  - now rewrite app_nil_r.
  - rewrite IH. fold (row_cells row).
    destruct (row_cells row); simpl; [reflexivity | now rewrite <- app_assoc].
Qed.

(** X9.  The grid read from a table element: the rows of the table that
    have a cell, in document order, each as the trimmed texts of its cells.
    No row of the grid is empty, no text has white space at either end, and
    the frame built from the grid is rectangular. *)
Theorem extracted_rows_spec (table_element : Element) :
  extracted_rows table_element =
  filter has_items
         (map row_cells
              (findall_descendants table_element (qname NS_table "table-row"))) /\
  Forall (fun r => r <> []) (extracted_rows table_element) /\
  Forall (Forall (fun s => strip s = s)) (extracted_rows table_element) /\
  rect (fold_right Nat.max 0 (map (@length str) (extracted_rows table_element)))
       (pd_DataFrame (extracted_rows table_element)).
Proof.
  split; [| split; [| split]].
  - unfold extracted_rows. now rewrite table_rows_eq.
  - apply table_rows_nonempty. constructor.
  - apply table_rows_stripped. constructor.
  - apply pd_DataFrame_rect.
Qed.

Lemma pd_DataFrame_length (rows : list (list str)) :
  length (pd_DataFrame rows) = length rows.
Proof. unfold pd_DataFrame. apply length_map. Qed.

(** X10.  [__extract_table_content] returns for every table element: the
    [max] over the counter of labels is never taken on an empty counter and
    no cell is read outside the frame.  A table with fewer than two rows that
    have a cell gives the empty list. *)
Theorem extract_table_content_returns {T : rag_tokenizer.Tokenizer}
        (table_element : Element) :
  (exists r, extract_table_content table_element = Some r) /\
  (length (extracted_rows table_element) < 2 ->
   extract_table_content table_element = Some []).
Proof.
  split; [apply extract_table_content_total|].
  unfold extract_table_content. fold (extracted_rows table_element).
  intros H. destruct (extracted_rows table_element) as [|r rows]; [reflexivity|].
  apply compose_table_content_short. now rewrite pd_DataFrame_length.
Qed.

Lemma extract_table_content_returns_witness :
  extract_table_content (T := rag_tokenizer.plain)
                        (Examples.table [["only"; "row"]]%string) = Some [].
Proof.
  apply (proj2 (@extract_table_content_returns rag_tokenizer.plain _)).
  vm_compute. lia.
Defined.

(** ** Lists *)

Lemma startswith_app (p s : str) : startswith (p ++ s) p = true.
Proof.
  induction p as [|a p IH]; simpl; [now destruct s|].
  now rewrite N.eqb_refl, IH.
Qed.

Lemma items_loop_indented (rec : Element -> nat -> bool -> option (list str))
      level is_ordered (items : list Element) :
  forall texts item_num out,
  items_loop rec level is_ordered items texts item_num = Some out ->
  Forall (fun t => startswith t (repeat_str (lit "  ") level) = true) texts ->
  Forall (fun t => startswith t (repeat_str (lit "  ") level) = true) out.
Proof.
  induction items as [|item items IH]; intros texts item_num out H Htexts; simpl in H.
  - injection H as <-. exact Htexts.
  - destruct (item_children rec level (children item) []) as [its|]; [| discriminate].
    cbn [bind] in H. destruct its as [|first rest]; [eapply IH; eauto|].
    eapply IH; [exact H|].
    apply Forall_app. split.
    + apply Forall_app. split; [exact Htexts|].
      constructor; [apply startswith_app | constructor].
    + apply Forall_forall. intros t Ht. apply in_map_iff in Ht.
      destruct Ht as (x & <- & _). apply startswith_app.
Qed.

(** X11.  [__extract_list_text] returns for every list element, and every
    line it returns starts with the indentation of its level, two spaces for
    each level. *)
Theorem extract_list_text_indented (list_element : Element) (level : nat)
        (is_ordered : bool) :
  exists texts,
    extract_list_text list_element level is_ordered = Some texts /\
    Forall (fun t => startswith t (repeat_str (lit "  ") level) = true) texts.
Proof.
  destruct (extract_list_text_total list_element level is_ordered) as [texts H].
  exists texts. split; [exact H|].
  unfold extract_list_text in H.
  destruct (size list_element) as [|fuel]; [discriminate|]. simpl in H.
  eapply items_loop_indented; [exact H | constructor].
Qed.

Lemma tag_list_item :
  str_eqb (qname NS_text "list-item") (qname NS_text "list-item") = true.
Proof. vm_compute. reflexivity. Qed.

Lemma tag_p_not_list_item :
  str_eqb (qname NS_text "p") (qname NS_text "list-item") = false.
Proof. vm_compute. reflexivity. Qed.

Lemma tag_p : str_eqb (qname NS_text "p") (qname NS_text "p") = true.
Proof. vm_compute. reflexivity. Qed.

Lemma flat_list_items (ts : list str) :
  findall_descendants (flat_list ts) (qname NS_text "list-item") =
  map (fun t => Elem (qname NS_text "list-item") [] [] [para t] []) ts.
Proof.
  unfold findall_descendants, descendants, flat_list, para. cbn [children].
  induction ts as [|t ts IH]; [reflexivity|].
  cbn [map concat iter app filter tag].
  rewrite tag_list_item, tag_p_not_list_item. f_equal. exact IH.
Qed.

Section FlatList.

Variable rec : Element -> nat -> bool -> option (list str).

Lemma item_children_para level (t : str) :
  item_children rec level [para t] [] =
  Some (match strip t with [] => [] | _ => [strip t] end).
Proof.
  cbn [item_children]. unfold para at 1. cbn [tag]. rewrite tag_p.
  unfold para. cbn [inner_text map concat]. rewrite app_nil_r.
  destruct (strip t); reflexivity.
Qed.

Lemma items_loop_flat level (ts : list str) : forall texts k,
  items_loop rec level true
    (map (fun t => Elem (qname NS_text "list-item") [] [] [para t] []) ts) texts k =
  Some (texts ++ numbered k (repeat_str (lit "  ") level)
                          (filter nonempty (map strip ts))).
Proof.
  induction ts as [|t ts IH]; intros texts k; cbn [map items_loop].
  - now rewrite app_nil_r.
  - cbn [children]. rewrite item_children_para. cbn [bind filter].
    destruct (strip t) as [|c s] eqn:E; cbn [nonempty].
    + apply IH.
    + rewrite IH. cbn [map numbered]. rewrite app_nil_r, <- !app_assoc.
      rewrite Nat.add_1_r. reflexivity.
Qed.

Lemma items_loop_flat_bullets level (ts : list str) : forall texts k,
  items_loop rec level false
    (map (fun t => Elem (qname NS_text "list-item") [] [] [para t] []) ts) texts k =
  Some (texts ++ map (fun t => repeat_str (lit "  ") level ++ lit "•" ++ lit " " ++ t)
                     (filter nonempty (map strip ts))).
Proof.
  induction ts as [|t ts IH]; intros texts k; cbn [map items_loop].
  - now rewrite app_nil_r.
  - cbn [children]. rewrite item_children_para. cbn [bind filter].
    destruct (strip t) as [|c s] eqn:E; cbn [nonempty].
    + apply IH.
    + rewrite IH. cbn [map]. rewrite app_nil_r, <- !app_assoc. reflexivity.
Qed.

End FlatList.

(** X12.  A list whose items hold one paragraph each.  An item whose
    paragraph is blank gives no line and takes no number: in an ordered list
    the items that have a text are numbered [1], [2], ... in order, and in an
    unordered list each gets a bullet; the text of an item is trimmed. *)
Theorem extract_list_text_flat (ts : list str) (level : nat) :
  extract_list_text (flat_list ts) level true =
  Some (numbered 1 (repeat_str (lit "  ") level) (filter nonempty (map strip ts))) /\
  extract_list_text (flat_list ts) level false =
  Some (map (fun t => repeat_str (lit "  ") level ++ lit "•" ++ lit " " ++ t)
            (filter nonempty (map strip ts))).
Proof.
  unfold extract_list_text.
  assert (Hsz : exists fuel, size (flat_list ts) = S fuel)
    by (unfold flat_list; simpl; eauto).
  destruct Hsz as [fuel ->]. cbn [extract_list_text_fuel].
  rewrite flat_list_items. split.
  - now rewrite items_loop_flat.
  - now rewrite items_loop_flat_bullets.
Qed.

(** ** The walk over the body *)

Section Body.

Context {T : rag_tokenizer.Tokenizer}.

Lemma body_loop_cons (element : Element) (elements : list Element)
      (secs : list Section_) (tbls : list (list str)) :
  body_loop (element :: elements) secs tbls =
  if str_eqb (short_tag (tag element)) (lit "text:p")
     || str_eqb (short_tag (tag element)) (lit "text:h") then
    body_loop elements
      (match strip (inner_text element) with
       | [] => secs
       | _ => secs ++ [(strip (inner_text element), None)]
       end) tbls
  else if str_eqb (short_tag (tag element)) (lit "text:list") then
    list_texts <- extract_list_text element 0
                    (contains (lower (get element (qname NS_text "style-name") []))
                              (lit "num")
                     || contains (lower (get element (qname NS_text "style-name") []))
                                 (lit "number")) ;;
    body_loop elements
      (secs ++ map (fun t => (t, None))
                   (filter (fun t => nonempty (strip t)) list_texts)) tbls
  else if str_eqb (short_tag (tag element)) (lit "table:table") then
    table_content <- extract_table_content element ;;
    body_loop elements secs
      (match table_content with [] => tbls | _ => tbls ++ [table_content] end)
  else body_loop elements secs tbls.
Proof. reflexivity. Qed.

Lemma body_loop_app (es1 es2 : list Element) : forall secs tbls,
  body_loop (es1 ++ es2) secs tbls =
  (r <- body_loop es1 secs tbls ;; body_loop es2 (fst r) (snd r)).
Proof.
  induction es1 as [|e es1 IH]; intros secs tbls; [reflexivity|].
  rewrite <- app_comm_cons, !body_loop_cons.
  destruct (_ || _); [apply IH|].
  destruct (str_eqb _ (lit "text:list")).
  - destruct (extract_list_text _ _ _); cbn [bind]; [apply IH | reflexivity].
  - destruct (str_eqb _ (lit "table:table")); [| apply IH].
    destruct (extract_table_content e); cbn [bind]; [apply IH | reflexivity].
Qed.

(** What is already collected does not change what the remaining elements
    add. *)
Lemma body_loop_acc (es : list Element) : forall secs tbls,
  body_loop es secs tbls =
  (r <- body_loop es [] [] ;; Some (secs ++ fst r, tbls ++ snd r)).
Proof.
  induction es as [|e es IH]; intros secs tbls.
  - simpl. now rewrite !app_nil_r.
  - assert (Hstep : forall ds dt,
               body_loop es (secs ++ ds) (tbls ++ dt) =
               (r <- body_loop es ([] ++ ds) ([] ++ dt) ;;
                Some (secs ++ fst r, tbls ++ snd r))).
    { intros ds dt. rewrite (IH (secs ++ ds)), (IH ([] ++ ds)).
      destruct (body_loop es [] []) as [[s t]|]; cbn [bind fst snd app];
        [| reflexivity].
      now rewrite !app_assoc. }
    rewrite !body_loop_cons.
    destruct (_ || _).
    + destruct (strip (inner_text e)).
      * rewrite <- (app_nil_r secs) at 1. rewrite <- (app_nil_r tbls) at 1.
        apply (Hstep [] []).
      * rewrite <- (app_nil_r tbls) at 1. apply (Hstep _ []).
    + destruct (str_eqb _ (lit "text:list")).
      * destruct (extract_list_text _ _ _); cbn [bind]; [| reflexivity].
        rewrite <- (app_nil_r tbls) at 1. apply (Hstep _ []).
      * destruct (str_eqb _ (lit "table:table")).
        -- destruct (extract_table_content e) as [[|l tc]|]; cbn [bind];
             [| | reflexivity].
           ++ rewrite <- (app_nil_r secs) at 1. rewrite <- (app_nil_r tbls) at 1.
              apply (Hstep [] []).
           ++ rewrite <- (app_nil_r secs) at 1. apply (Hstep [] _).
        -- rewrite <- (app_nil_r secs) at 1. rewrite <- (app_nil_r tbls) at 1.
           apply (Hstep [] []).
Qed.

End Body.

(** X13.  The sections and tables of a run of body elements are those of
    its first part followed by those of the rest: every element adds its own
    output after what came before it, in document order, whatever was
    collected so far. *)
Theorem body_loop_concat {T : rag_tokenizer.Tokenizer} (es1 es2 : list Element) :
  body_loop (es1 ++ es2) [] [] =
  (r1 <- body_loop es1 [] [] ;;
   r2 <- body_loop es2 [] [] ;;
   Some (fst r1 ++ fst r2, snd r1 ++ snd r2)).
Proof.
  rewrite body_loop_app.
  destruct (body_loop es1 [] []) as [[s1 t1]|]; cbn [bind fst snd]; [| reflexivity].
  apply body_loop_acc.
Qed.

Lemma body_loop_kept {T : rag_tokenizer.Tokenizer} (es : list Element) :
  forall secs tbls secs' tbls',
  body_loop es secs tbls = Some (secs', tbls') ->
  Forall (fun s => strip (fst s) <> []) secs -> Forall (fun t => t <> []) tbls ->
  Forall (fun s => strip (fst s) <> []) secs' /\ Forall (fun t => t <> []) tbls'.
Proof.
  induction es as [|e es IH]; intros secs tbls secs' tbls' H Hs Ht.
  - simpl in H. injection H as <- <-. auto.
  - rewrite body_loop_cons in H.
    destruct (_ || _).
    + eapply IH; [exact H | | exact Ht].
      destruct (strip (inner_text e)) as [|c s] eqn:E; [exact Hs|].
      apply Forall_app. split; [exact Hs|]. constructor; [| constructor].
      cbn [fst]. rewrite <- E, strip_idem, E. discriminate.
    + destruct (str_eqb _ (lit "text:list")).
      * destruct (extract_list_text _ _ _) as [ts|]; cbn [bind] in H; [| discriminate].
        eapply IH; [exact H | | exact Ht].
        apply Forall_app. split; [exact Hs|].
        apply Forall_forall. intros s Hin. apply in_map_iff in Hin.
        destruct Hin as (t & <- & Hin). apply filter_In in Hin.
        destruct Hin as [_ Hin]. cbn [fst]. destruct (strip t); [discriminate Hin|].
        discriminate.
      * destruct (str_eqb _ (lit "table:table")); [| eapply IH; eauto].
        destruct (extract_table_content e) as [tc|]; cbn [bind] in H; [| discriminate].
        eapply IH; [exact H | exact Hs |].
        destruct tc as [|l tc]; [exact Ht|].
        apply Forall_app. split; [exact Ht|]. constructor; [discriminate | constructor].
Qed.

(** X14.  [__call__] returns for every parsed content.  No section it
    returns is blank (each text still has a character when trimmed), and no
    table block is an empty list. *)
Theorem call_parsed_returns {T : rag_tokenizer.Tokenizer} (root : Element) :
  exists secs tbls,
    call_parsed root = Some (secs, tbls) /\
    Forall (fun s => strip (fst s) <> []) secs /\
    Forall (fun t => t <> []) tbls.
Proof.
  destruct (call_parsed_total root) as [[secs tbls] H].
  exists secs, tbls. split; [exact H|].
  unfold call_parsed in H.
  destruct (find_descendant_child _ _ _) as [body|].
  - eapply body_loop_kept; [exact H | constructor | constructor].
  - injection H as <- <-. split; constructor.
Qed.

Lemma tag_office_body :
  str_eqb (qname NS_office "body") (qname NS_office "body") = true.
Proof. vm_compute. reflexivity. Qed.

Lemma tag_office_text :
  str_eqb (qname NS_office "text") (qname NS_office "text") = true.
Proof. vm_compute. reflexivity. Qed.

(** In a document built by [Examples.document], the body found is its
    [office:text] element. *)
Lemma call_parsed_document {T : rag_tokenizer.Tokenizer} (body : list Element) :
  call_parsed (Examples.document body) = body_loop body [] [].
Proof.
  unfold call_parsed, find_descendant_child, findall_descendants, descendants,
    Examples.document.
  cbn [children map iter concat app filter tag].
  rewrite tag_office_body. cbn [map concat children filter tag app].
  rewrite tag_office_text. reflexivity.
Qed.

Lemma short_tag_p :
  str_eqb (short_tag (qname NS_text "p")) (lit "text:p")
  || str_eqb (short_tag (qname NS_text "p")) (lit "text:h") = true.
Proof. vm_compute. reflexivity. Qed.

Lemma short_tag_h :
  str_eqb (short_tag (qname NS_text "h")) (lit "text:p")
  || str_eqb (short_tag (qname NS_text "h")) (lit "text:h") = true.
Proof. vm_compute. reflexivity. Qed.

Lemma body_loop_paragraphs {T : rag_tokenizer.Tokenizer} (es : list Element) :
  Forall (fun e => tag e = qname NS_text "p" \/ tag e = qname NS_text "h") es ->
  forall secs tbls,
  body_loop es secs tbls =
  Some (secs ++ map (fun t => (t, None))
                    (filter nonempty (map (fun e => strip (inner_text e)) es)),
        tbls).
Proof.
  induction 1 as [|e es He _ IH]; intros secs tbls.
  - simpl. now rewrite app_nil_r.
  - rewrite body_loop_cons.
    assert (Hp : str_eqb (short_tag (tag e)) (lit "text:p")
                 || str_eqb (short_tag (tag e)) (lit "text:h") = true)
      by (destruct He as [-> | ->]; [apply short_tag_p | apply short_tag_h]).
    rewrite Hp, IH. cbn [map filter].
    destruct (strip (inner_text e)); cbn [nonempty map]; [reflexivity|].
    now rewrite <- app_assoc.
Qed.

(** X15.  A document whose body holds paragraphs and headings only: the
    sections are the trimmed texts of those that are not blank, in document
    order, each without an image, and there is no table. *)
Theorem call_parsed_paragraphs {T : rag_tokenizer.Tokenizer} (es : list Element) :
  Forall (fun e => tag e = qname NS_text "p" \/ tag e = qname NS_text "h") es ->
  call_parsed (Examples.document es) =
  Some (map (fun t => (t, None))
            (filter nonempty (map (fun e => strip (inner_text e)) es)),
        []).
Proof.
  intros H. rewrite call_parsed_document. now rewrite body_loop_paragraphs.
Qed.

Lemma call_parsed_paragraphs_witness :
  call_parsed (T := rag_tokenizer.plain)
    (Examples.document [Examples.p " Title "; Examples.p "  "; Examples.p "Body"])
  = Some ([(lit "Title", None); (lit "Body", None)], []).
Proof.
  rewrite (@call_parsed_paragraphs rag_tokenizer.plain).
  - vm_compute. reflexivity.
  - repeat constructor.
Defined.

(** ** Ordered lists *)

Lemma startswith_iff (s p : str) :
  startswith s p = true <-> exists post, s = p ++ post.
Proof.
  revert s. induction p as [|a p IH]; intros s.
  - split; [intros _; exists s; reflexivity | intros _; now destruct s].
  - destruct s as [|b s]; simpl.
    + split; [discriminate | intros (post & E); discriminate].
    + rewrite andb_true_iff, N.eqb_eq, IH. split.
      * intros [-> (post & ->)]. eauto.
      * intros (post & E). injection E as -> ->. eauto.
Qed.

Lemma find_from_occurs (s sub : str) : forall i,
  (0 <= i)%Z -> ((0 <=? find_from i s sub)%Z = true <-> occurs s sub).
Proof.
  induction s as [|c s IH]; intros i Hi.
  - cbn [find_from]. destruct (startswith [] sub) eqn:E.
    + split; [| intros _; now apply Z.leb_le].
      intros _. apply startswith_iff in E. destruct E as (post & E).
      exists [], post. exact E.
    + split; [discriminate|]. intros (pre & post & H). exfalso.
      symmetry in H. apply app_eq_nil in H. destruct H as [_ H].
      apply app_eq_nil in H. destruct H as [-> _]. discriminate.
  - cbn [find_from]. destruct (startswith (c :: s) sub) eqn:E.
    + split; [| intros _; now apply Z.leb_le].
      intros _. apply startswith_iff in E. destruct E as (post & E).
      exists [], post. exact E.
    + rewrite IH by lia. split.
      * intros (pre & post & ->). exists (c :: pre), post. reflexivity.
      * intros (pre & post & H). destruct pre as [|c' pre].
        -- exfalso. assert (startswith (c :: s) sub = true)
             by (apply startswith_iff; exists post; exact H).
           congruence.
        -- injection H as _ ->. exists pre, post. reflexivity.
Qed.

Lemma contains_occurs (s sub : str) : contains s sub = true <-> occurs s sub.
Proof. unfold contains, find. now apply find_from_occurs. Qed.

(** X16.  Whether a top-level list is ordered is decided as for a nested
    list, by ["num"] occurring in the lower-cased style name: the further
    test for ["number"] in [__call__] never changes the answer. *)
Theorem is_ordered_num (style_name : str) :
  contains (lower style_name) (lit "num") || contains (lower style_name) (lit "number")
  = (0 <=? find (lower style_name) (lit "num"))%Z.
Proof.
  fold (contains (lower style_name) (lit "num")).
  destruct (contains (lower style_name) (lit "num")) eqn:E; [reflexivity|].
  destruct (contains (lower style_name) (lit "number")) eqn:E'; [| reflexivity].
  apply contains_occurs in E'. destruct E' as (pre & post & H).
  assert (Hnum : contains (lower style_name) (lit "num") = true).
  { apply contains_occurs. exists pre, (lit "ber" ++ post).
    rewrite H. change (lit "number") with (lit "num" ++ lit "ber").
    now rewrite <- app_assoc. }
  congruence.
Qed.

(** ** Frames of two rows *)

(** X17.  A frame of exactly two rows always has row [1] as its only data
    row: whatever the labels of its cells, the result is the line of row [1]
    under the headers of row [0], alone in a list for more than three columns
    and as one block otherwise. *)
Theorem compose_table_content_two_rows {T : rag_tokenizer.Tokenizer}
        (df : DataFrame) (w : nat) :
  rect w df -> 1 <= w -> length df = 2 ->
  compose_table_content df =
  Some [join (lit ";")
          (map (fun j => top_label df j ++ py_str (cell_at df 1 j))
               (filter (fun j => nonempty (py_str (cell_at df 1 j))) (range 0 w)))].
Proof.
  intros R Hw Hn.
  rewrite (@compose_table_content_top_header T df w R Hw).
  - rewrite Hn. unfold blocks. cbn [range Nat.sub seq map].
    destruct (3 <? w); reflexivity.
  - lia.
  - intros Hnu i Hi. assert (i = 1) by lia. subst i.
    rewrite max_type_of_eq in Hnu. unfold content_types in Hnu.
    rewrite Hn in Hnu. cbn [range Nat.sub seq map concat] in Hnu.
    now rewrite app_nil_r in Hnu.
Qed.

Lemma compose_table_content_two_rows_witness :
  compose_table_content (T := rag_tokenizer.plain)
    (Examples.grid [["Item"; "Qty"]; ["apple"; "3"]]%string)
  = Some [lit "Item: apple;Qty: 3"].
Proof.
  rewrite (@compose_table_content_two_rows rag_tokenizer.plain _ 2).
  - vm_compute. reflexivity.
  - vm_compute. repeat constructor.
  - lia.
  - reflexivity.
Defined.

(** ** Dates written with digits *)

Lemma matches_literal (l : str) :
  matches (Seq (map (fun c => Cls (N.eqb c)) l)) l.
Proof.
  induction l as [|c l IH]; cbn [map Seq fold_right]; [constructor|].
  apply (@m_cat _ _ [c] l); [constructor; apply N.eqb_refl | exact IH].
Qed.

Lemma matches_rep (p : char -> bool) (l : str) :
  forallb p l = true -> matches (Rep (length l) (Cls p)) l.
Proof.
  induction l as [|c l IH]; simpl; intros H; [constructor|].
  apply andb_true_iff in H. destruct H as [Hc Hl].
  apply (@m_cat _ _ [c] l); [now constructor | now apply IH].
Qed.

Lemma matches_upto (p : char -> bool) (k : nat) : forall l,
  length l <= k -> forallb p l = true -> matches (UpTo k (Cls p)) l.
Proof.
  induction k as [|k IH]; intros l Hlen H.
  - destruct l; [constructor | simpl in Hlen; lia].
  - destruct l as [|c l]; cbn [UpTo]; [apply m_alt_l; constructor|].
    simpl in H, Hlen. apply andb_true_iff in H. destruct H as [Hc Hl].
    apply m_alt_r. apply (@m_cat _ _ [c] l); [now constructor|].
    apply IH; [lia | exact Hl].
Qed.

Lemma matches_one_or_two (p : char -> bool) (l : str) :
  1 <= length l <= 2 -> forallb p l = true -> matches (RepRange 1 2 (Cls p)) l.
Proof.
  intros Hlen H. destruct l as [|c l]; [simpl in Hlen; lia|].
  simpl in H, Hlen. apply andb_true_iff in H. destruct H as [Hc Hl].
  unfold RepRange. cbn [Rep Nat.sub].
  apply (@m_cat _ _ [c] l).
  - apply (@m_cat _ _ [c] []); [now constructor | constructor].
  - apply matches_upto; [lia | exact Hl].
Qed.

(** X18.  A full date written with digits, a century [20] or [19], two more
    digits, a separator ([年], [/] or [-]), one or two digits, a separator
    ([月], [/] or [-]) and one or two digits, is labelled [Dt] by the first
    pattern, although the numeric and code patterns further down may match it
    too. *)
Theorem blockType_full_date {T : rag_tokenizer.Tokenizer}
        (century y m d : str) (s1 s2 : char) :
  century = lit "20" \/ century = lit "19" ->
  length y = 2 -> forallb is_digit y = true ->
  one_of (lit "年/-") s1 = true ->
  1 <= length m <= 2 -> forallb is_digit m = true ->
  one_of (lit "月/-") s2 = true ->
  1 <= length d <= 2 -> forallb is_digit d = true ->
  blockType (century ++ y ++ [s1] ++ m ++ [s2] ++ d) = Dt.
Proof.
  intros Hc Hy Hyd Hs1 Hm Hmd Hs2 Hd Hdd. unfold blockType.
  rewrite (@first_match_nth pattern _ 0 _ Dt eq_refl); [reflexivity | | intros; lia].
  unfold search_anchored. apply orb_true_iff. left. apply fullmatch_matches.
  cbv [Seq fold_right]. rewrite (app_assoc century y).
  apply m_cat.
  - (* the year *)
    unfold year. rewrite <- Hy.
    apply m_cat; [| apply (matches_rep is_digit y Hyd)].
    destruct Hc as [-> | ->]; [apply m_alt_l | apply m_alt_r]; apply matches_literal.
  - apply (@m_cat _ _ [s1]); [now constructor|].
    apply m_cat; [now apply matches_one_or_two|].
    apply (@m_cat _ _ [s2]); [now constructor|].
    rewrite <- (app_nil_r d).
    apply m_cat; [now apply matches_one_or_two|].
    rewrite <- (app_nil_r []). apply m_cat; constructor.
Qed.

Lemma blockType_full_date_witness :
  blockType (T := rag_tokenizer.plain) (lit "2023-1-02") = Dt.
Proof.
  apply (@blockType_full_date rag_tokenizer.plain
           (lit "20") (lit "23") (lit "1") (lit "02") 45%N 45%N);
    try reflexivity; try (left; reflexivity); vm_compute; lia.
Defined.
